(** * angular-permission: permission maps and state authorization

    A shallow embedding of

    - [PermPermissionMap] (the access rights map factory): normalisation of
      the [only], [except] and [redirectTo] properties, redirect resolution
      and per-name validity checks;
    - [PermStatePermissionMap] (dist/angular-permission-ui.js): the map that
      compensates the permissions of a whole state path;
    - [PermStateAuthorization]
      (src/permission-ui/authorization/StateAuthorization.js): the
      except-then-only authorization protocol;
    - the [$state] decorator and [PermTransitionEvents]
      (dist/angular-permission-ui.js): [transitionTo] under permissions, with
      the events it broadcasts.

    JavaScript values are a first-order datatype; function objects live in a
    heap and are referred to by location, so that the [$inject] annotation
    written by the normalisation is visible through every alias.  Promises
    are described by their settlement (when, and how), on a discrete clock. *)

From Stdlib Require Import ZArith Lia Sorted.
From stdpp Require Import base option list strings gmap pretty.

Local Open Scope string_scope.
Set Warnings "-register-all".

(** ** JavaScript values *)

Module JS.

Definition loc := nat.

(** How a promise ends: never, fulfilled at tick [t] with [v], or rejected
    at tick [t] with reason [r]. *)
Inductive settlement (A : Type) : Type :=
  | Pending
  | Fulfils (t : nat) (v : A)
  | Rejects (t : nat) (r : A).
Arguments Pending {A}.
Arguments Fulfils {A} t v.
Arguments Rejects {A} t r.

Inductive value : Type :=
  | VUndefined
  | VNull
  | VBool (b : bool)
  | VNum (n : Z)
  | VStr (s : string)
  | VArr (xs : list value)
  | VObj (fields : list (string * value))
  | VFun (l : loc)
  | VPromise (p : settlement value).

Definition promise := settlement value.

(** [angular.isString], [isArray], [isFunction], [isObject], [isDefined]. *)
Definition isString (v : value) : bool :=
  match v with VStr _ => true | _ => false end.

Definition isArray (v : value) : bool :=
  match v with VArr _ => true | _ => false end.

Definition isFunction (v : value) : bool :=
  match v with VFun _ => true | _ => false end.

(** [value !== null && typeof value === 'object'] *)
Definition isObject (v : value) : bool :=
  match v with VArr _ | VObj _ | VPromise _ => true | _ => false end.

Definition isDefined (v : value) : bool :=
  match v with VUndefined => false | _ => true end.

(** ToBoolean *)
Definition truthy (v : value) : bool :=
  match v with
  | VUndefined | VNull => false
  | VBool b => b
  | VNum n => negb (n =? 0)%Z
  | VStr s => negb (String.eqb s "")
  | VArr _ | VObj _ | VFun _ | VPromise _ => true
  end.

(** Own property of an object literal (property names are distinct). *)
Fixpoint field (fields : list (string * value)) (key : string) : value :=
  match fields with
  | [] => VUndefined
  | (k, v) :: rest => if String.eqb k key then v else field rest key
  end.

(** [xs[i]] on an array. *)
Definition index (v : value) (i : nat) : value :=
  match v with
  | VArr xs => default VUndefined (xs !! i)
  | _ => VUndefined
  end.

(** Function objects: the formal parameter names (read by the injector
    when there is no annotation), the [$inject] property and the body.
    Bodies are pure. *)
Record fobj : Type := FObj {
  fn_params : list string;
  fn_inject : value;
  fn_body : list value -> value
}.

Inductive error : Type :=
  | TypeError
  | ReferenceError
  | InjectorError.

(** Normal completion or a thrown exception. *)
Inductive completion (A : Type) : Type :=
  | Normal (a : A)
  | Throw (e : error).
Arguments Normal {A} a.
Arguments Throw {A} e.

End JS.
Export JS.

(** ** Promises: the part of [$q] the code uses *)

Module Q.

Definition is_pending (p : promise) : bool :=
  match p with Pending => true | _ => false end.

Definition fulfilment (p : promise) : option (nat * value) :=
  match p with Fulfils t v => Some (t, v) | _ => None end.

Definition rejection (p : promise) : option (nat * value) :=
  match p with Rejects t r => Some (t, r) | _ => None end.

Definition settled_at (p : promise) : option nat :=
  match p with
  | Pending => None
  | Fulfils t _ | Rejects t _ => Some t
  end.

(** A promise handed out at tick [now] whose settlement is given as a
    delay. *)
Definition shift (now : nat) (p : promise) : promise :=
  match p with
  | Pending => Pending
  | Fulfils d v => Fulfils (now + d) v
  | Rejects d r => Rejects (now + d) r
  end.

(** The earliest settlement selected by [sel]; of two at the same tick
    the one earlier in the list (its callback was registered first). *)
Fixpoint earliest (sel : promise -> option (nat * value))
    (ps : list promise) : option (nat * value) :=
  match ps with
  | [] => None
  | p :: ps' =>
      match sel p, earliest sel ps' with
      | Some (t, v), Some (t', v') =>
          if (t <=? t')%nat then Some (t, v) else Some (t', v')
      | Some tv, None => Some tv
      | None, r => r
      end
  end.

(** The latest settlement selected by [sel]; of two at the same tick the
    one later in the list. *)
Fixpoint latest (sel : promise -> option (nat * value))
    (ps : list promise) : option (nat * value) :=
  match ps with
  | [] => None
  | p :: ps' =>
      match sel p, latest sel ps' with
      | Some (t, v), Some (t', v') =>
          if (t' <? t)%nat then Some (t, v) else Some (t', v')
      | Some tv, None => Some tv
      | None, r => r
      end
  end.

Definition q_resolve (now : nat) (v : value) : promise := Fulfils now v.
Definition q_reject (now : nat) (r : value) : promise := Rejects now r.

(** [$q.when(x)]: a promise is adopted, any other value is fulfilled at
    once. *)
Definition q_when (now : nat) (x : value) : promise :=
  match x with
  | VPromise p => shift now p
  | _ => Fulfils now x
  end.

(** [p.then(f)] for a handler [f] that returns a plain value. *)
Definition q_then (f : value -> value) (p : promise) : promise :=
  match p with
  | Fulfils t v => Fulfils t (f v)
  | other => other
  end.

Definition payloads (ps : list promise) : list value :=
  omap (fun p => snd <$> fulfilment p) ps.

Definition last_tick (now : nat) (ps : list promise) : nat :=
  foldr (fun p acc => Nat.max (default 0 (settled_at p)) acc) now ps.

(** [$q.all(promises)] called at tick [now]: rejected by the first
    rejection to happen; fulfilled with the array of all values once the
    last one is fulfilled. *)
Definition q_all (now : nat) (ps : list promise) : promise :=
  match earliest rejection ps with
  | Some (t, r) => Rejects t r
  | None =>
      if existsb is_pending ps then Pending
      else Fulfils (last_tick now ps) (VArr (payloads ps))
  end.

(** Modelled from the spec: [$q.any], the "any of N promises" combinator
    that the permission module adds to [$q]; its source is not part of the
    files at hand.  The group succeeds as soon as any one promise is
    fulfilled (first to settle successfully wins) with that promise's
    payload; if all fail it fails with the reason of the final settled
    rejection.  The spec is silent on an empty collection: the accumulator
    then still holds no reason. *)
Definition q_any (now : nat) (ps : list promise) : promise :=
  match earliest fulfilment ps with
  | Some (t, v) => Fulfils t v
  | None =>
      if existsb is_pending ps then Pending
      else match latest rejection ps with
           | Some (t, r) => Rejects t r
           | None => Rejects now VUndefined
           end
  end.

End Q.
Export Q.

(** ** The world of the constructors: function heap and call log *)

Module World.

Record world : Type := World {
  heap : gmap loc fobj;
  calls : list (loc * list value)
}.

(** Computations that read and write the world and may throw; the world
    survives an exception. *)
Definition M (A : Type) : Type := world -> completion A * world.

Definition ret {A} (a : A) : M A := fun w => (Normal a, w).

Definition bind {A B} (m : M A) (k : A -> M B) : M B :=
  fun w =>
    match m w with
    | (Normal a, w') => k a w'
    | (Throw e, w') => (Throw e, w')
    end.

Definition throw {A} (e : error) : M A := fun w => (Throw e, w).

Definition read_heap : M (gmap loc fobj) := fun w => (Normal (heap w), w).

(** [fn.call(null, args...)]; the call is recorded. *)
Definition call (fn : value) (args : list value) : M value :=
  fun w =>
    match fn with
    | VFun l =>
        match heap w !! l with
        | Some f =>
            (Normal (fn_body f args),
             World (heap w) (calls w ++ [(l, args)])%list)
        | None => (Throw TypeError, w)
        end
    | _ => (Throw TypeError, w)
    end.

(** A function object with its [$inject] property set to [names]. *)
Definition annotated (names : value) (f : fobj) : fobj :=
  FObj (fn_params f) names (fn_body f).

(** [fn.$inject = names] on a function object; the object itself is
    updated, so every holder of the reference sees the annotation. *)
Definition set_inject (fn : value) (names : value) : M unit :=
  fun w =>
    match fn with
    | VFun l =>
        (Normal tt, World (alter (annotated names) l (heap w)) (calls w))
    | _ => (Normal tt, w)
    end.

(** Property read [v.key] for the keys the code reads.  Function objects
    carry [$inject] only; primitives have no own properties. *)
Definition get_prop (h : gmap loc fobj) (v : value) (key : string) : value :=
  match v with
  | VObj fields => field fields key
  | VFun l =>
      if String.eqb key "$inject"
      then match h !! l with Some f => fn_inject f | None => VUndefined end
      else VUndefined
  | _ => VUndefined
  end.

End World.
Export World.

Notation "x <- m ;; k" := (bind m (fun x => k))
  (at level 100, m at next level, right associativity, only parsing).

(** ** PermPermissionMap *)

Module PermissionMap.

(** An entry of the redirection dictionary: either a closure made by the
    normalisation, [function () { return v; }], or the caller's own
    injectable, stored as it came. *)
Inductive resolver : Type :=
  | RConst (v : value)
  | RUser (fn : value).

(** The [redirectTo] property after normalisation: a dictionary, or the
    input itself when the normalisation let it through untouched. *)
Inductive redirection : Type :=
  | RedirMap (d : gmap string resolver)
  | RedirRaw (v : value).

Record PermissionMap : Type := MkPermissionMap {
  only : value;
  except : value;
  redirectTo : redirection
}.

Definition injectNames : value :=
  VArr [VStr "rejectedPermission"; VStr "transitionProperties"].

Section WithTransition.

(** [PermTransitionProperties], the ambient transition context. *)
Variable PermTransitionProperties : value.

(** [property && (isArray(property) || isArray(property.$inject))] *)
Definition isInjectable (h : gmap loc fobj) (property : value) : bool :=
  truthy property
  && (isArray property || isArray (get_prop h property "$inject")).

Definition normalizeOnlyAndExceptProperty (property : value) : M value :=
  if isString property then ret (VArr [property])
  else if isArray property then ret property
  else if isFunction property
       then call property [PermTransitionProperties]
  else ret (VArr []).

Definition normalizeStringRedirectionRule (redirectTo : value)
    : redirection :=
  RedirMap {[ "default" := RConst (VObj [("state", redirectTo)]) ]}.

Definition isObjectSingleRedirectionRule (h : gmap loc fobj)
    (redirectTo : value) : bool :=
  isDefined (get_prop h redirectTo "state").

Definition normalizeObjectSingleRedirectionRule (redirectTo : value)
    : redirection :=
  RedirMap {[ "default" := RConst redirectTo ]}.

Definition isObjectMultipleRedirectionRule (h : gmap loc fobj)
    (redirectTo : value) : bool :=
  isDefined (get_prop h redirectTo "default").

(** The body of the [angular.forEach] callback, for one own property. *)
Definition normalizeEntry (redirectionMap : gmap string resolver)
    (permission : string) (redirection : value)
    : M (gmap string resolver) :=
  h <- read_heap ;;
  if isInjectable h redirection
  then ret (<[permission := RUser redirection]> redirectionMap)
  else if isFunction redirection
  then (_ <- set_inject redirection injectNames ;;
        ret (<[permission := RUser redirection]> redirectionMap))
  else if isObject redirection
  then ret (<[permission := RConst redirection]> redirectionMap)
  else if isString redirection
  then ret (<[permission :=
                RConst (VObj [("state", redirection)])]> redirectionMap)
  else ret redirectionMap.

Fixpoint normalizeEntries (redirectionMap : gmap string resolver)
    (fields : list (string * value)) : M (gmap string resolver) :=
  match fields with
  | [] => ret redirectionMap
  | (permission, redirection) :: rest =>
      m <- normalizeEntry redirectionMap permission redirection ;;
      normalizeEntries m rest
  end.

(** [angular.forEach] visits the own properties of an object literal;
    only those reach this function. *)
Definition normalizeObjectMultipleRedirectionRule (redirectTo : value)
    : M redirection :=
  m <- normalizeEntries ∅
        (match redirectTo with VObj fields => fields | _ => [] end) ;;
  ret (RedirMap m).

Definition normalizeFunctionRedirectionRule (redirectTo : value)
    : M redirection :=
  h <- read_heap ;;
  if negb (isInjectable h redirectTo)
  then (_ <- set_inject redirectTo injectNames ;;
        ret (RedirMap {[ "default" := RUser redirectTo ]}))
  else ret (RedirMap {[ "default" := RUser redirectTo ]}).

Definition normalizeRedirectToProperty (redirectTo : value)
    : M redirection :=
  h <- read_heap ;;
  if isString redirectTo
  then ret (normalizeStringRedirectionRule redirectTo)
  else if isInjectable h redirectTo || isFunction redirectTo
  then normalizeFunctionRedirectionRule redirectTo
  else if isObject redirectTo
  then
    if isObjectSingleRedirectionRule h redirectTo
    then ret (normalizeObjectSingleRedirectionRule redirectTo)
    else if isObjectMultipleRedirectionRule h redirectTo
    then normalizeObjectMultipleRedirectionRule redirectTo
    else throw ReferenceError
  else ret (RedirRaw redirectTo).

(** [new PermissionMap(permissionMap)] *)
Definition new_PermissionMap (permissionMap : value) : M PermissionMap :=
  h <- read_heap ;;
  let permissionMap :=
    if truthy permissionMap then permissionMap else VObj [] in
  o <- normalizeOnlyAndExceptProperty (get_prop h permissionMap "only") ;;
  e <- normalizeOnlyAndExceptProperty (get_prop h permissionMap "except") ;;
  r <- normalizeRedirectToProperty (get_prop h permissionMap "redirectTo") ;;
  ret (MkPermissionMap o e r).

(** *** The dictionary and the heap after [normalizeEntries]

    What the [forEach] callback stores for a property value, and what it
    does to the heap, as functions of the value alone. *)

Definition entryOf (redirection : value) : option resolver :=
  if isFunction redirection || isInjectable ∅ redirection
  then Some (RUser redirection)
  else if isObject redirection then Some (RConst redirection)
  else if isString redirection
  then Some (RConst (VObj [("state", redirection)]))
  else None.

Definition addEntry (redirectionMap : gmap string resolver)
    (property : string * value) : gmap string resolver :=
  match entryOf (snd property) with
  | Some r => <[fst property := r]> redirectionMap
  | None => redirectionMap
  end.

Definition annotateHeap (h : gmap loc fobj) (redirection : value)
    : gmap loc fobj :=
  match redirection with
  | VFun l =>
      if isInjectable h redirection then h
      else alter (annotated injectNames) l h
  | _ => h
  end.

(** *** Redirect resolution *)

(** [$injector]'s services, looked up by name. *)
Variable getService : string -> option value.

Definition hasOwn (locals : list (string * value)) (key : string) : bool :=
  existsb (fun kv => String.eqb (fst kv) key) locals.

(** One argument of an injected call: a local if the locals own the
    key, a service otherwise. *)
Definition injectionArg (locals : list (string * value)) (key : value)
    : completion value :=
  match key with
  | VStr k =>
      if hasOwn locals k then Normal (field locals k)
      else match getService k with
           | Some v => Normal v
           | None => Throw InjectorError
           end
  | _ => Throw InjectorError
  end.

Fixpoint injectionArgs (locals : list (string * value))
    (keys : list value) : completion (list value) :=
  match keys with
  | [] => Normal []
  | key :: rest =>
      match injectionArg locals key, injectionArgs locals rest with
      | Normal a, Normal args => Normal (a :: args)
      | Throw e, _ => Throw e
      | _, Throw e => Throw e
      end
  end.

(** The names a function object is injected with: its [$inject] array,
    or else its formal parameters (the normalisation leaves no function
    with an annotation that is not an array). *)
Definition annotate (f : fobj) : list value :=
  match fn_inject f with
  | VArr names => names
  | _ => VStr <$> fn_params f
  end.

(** [$injector.invoke(fn, null, locals)] for a function object and for
    the inline array annotation [[name, ..., fn]]. *)
Definition invoke (h : gmap loc fobj) (fn : value)
    (locals : list (string * value)) : completion value :=
  match fn with
  | VFun l =>
      match h !! l with
      | Some f =>
          match injectionArgs locals (annotate f) with
          | Normal args => Normal (fn_body f args)
          | Throw e => Throw e
          end
      | None => Throw InjectorError
      end
  | VArr xs =>
      match last xs with
      | Some (VFun l) =>
          match h !! l with
          | Some f =>
              match injectionArgs locals (removelast xs) with
              | Normal args => Normal (fn_body f args)
              | Throw e => Throw e
              end
          | None => Throw InjectorError
          end
      | _ => Throw InjectorError
      end
  | _ => Throw InjectorError
  end.

Definition invokeResolver (h : gmap loc fobj) (r : resolver)
    (locals : list (string * value)) : completion value :=
  match r with
  | RConst v => Normal v
  | RUser fn => invoke h fn locals
  end.

(** The [then] handler of the private [resolveRedirectState]. *)
Definition redirectStateOf (p : promise) : promise :=
  match p with
  | Fulfils t redirectState =>
      if isString redirectState
      then Fulfils t (VObj [("state", redirectState)])
      else if isObject redirectState
      then Fulfils t redirectState
      else Rejects t VUndefined
  | other => other
  end.

(** The private function [resolveRedirectState(redirectFunction,
    rejectedPermissionName)], called at tick [now]. *)
Definition resolveRedirectState_fn (h : gmap loc fobj) (now : nat)
    (redirectFunction : resolver) (rejectedPermissionName : string)
    : completion promise :=
  match invokeResolver h redirectFunction
          [("rejectedPermission", VStr rejectedPermissionName);
           ("transitionProperties", PermTransitionProperties)] with
  | Normal x => Normal (redirectStateOf (q_when now x))
  | Throw e => Throw e
  end.

Definition resolver_truthy (r : resolver) : bool :=
  match r with
  | RConst _ => true
  | RUser fn => truthy fn
  end.

(** [this.redirectTo[rejectedPermissionName] || this.redirectTo['default']]
    on a dictionary. *)
Definition lookupRedirect (d : gmap string resolver)
    (rejectedPermissionName : string) : option resolver :=
  match d !! rejectedPermissionName with
  | Some r => if resolver_truthy r then Some r else d !! "default"
  | None => d !! "default"
  end.

(** [PermissionMap.prototype.resolveRedirectState] *)
Definition resolveRedirectState (h : gmap loc fobj) (now : nat)
    (this : PermissionMap) (rejectedPermissionName : string)
    : completion promise :=
  match redirectTo this with
  | RedirMap d =>
      match lookupRedirect d rejectedPermissionName with
      | Some redirectState =>
          resolveRedirectState_fn h now redirectState
            rejectedPermissionName
      | None => Normal (q_reject now VUndefined)
      end
  | RedirRaw VUndefined | RedirRaw VNull => Throw TypeError
  | RedirRaw raw =>
      let byName := get_prop h raw rejectedPermissionName in
      let redirectState :=
        if truthy byName then byName else get_prop h raw "default" in
      if isDefined redirectState
      then resolveRedirectState_fn h now (RUser redirectState)
             rejectedPermissionName
      else Normal (q_reject now VUndefined)
  end.

(** *** Validity of the names of one property *)

Inductive store : Type := RoleStore | PermissionStore.

(** What a validity check does to its collaborators, in order. *)
Inductive event : Type :=
  | Has (s : store) (name : value)
  | Validate (s : store) (name : value)
  | Warn (name : value).

(** [PermRoleStore] and [PermPermissionStore]: is the name defined, and
    how the validation started at a given tick settles (as a delay). *)
Record Stores : Type := MkStores {
  hasRoleDefinition : value -> bool;
  validateRole : value -> nat -> promise;
  hasPermissionDefinition : value -> bool;
  validatePermission : value -> nat -> promise
}.

Variable stores : Stores.

(** The callback of [property.map], run at tick [now]. *)
Definition resolvePrivilege (now : nat) (privilegeName : value)
    : promise * list event :=
  if hasRoleDefinition stores privilegeName
  then (shift now (validateRole stores privilegeName now),
        [Has RoleStore privilegeName; Validate RoleStore privilegeName])
  else if hasPermissionDefinition stores privilegeName
  then (shift now (validatePermission stores privilegeName now),
        [Has RoleStore privilegeName; Has PermissionStore privilegeName;
         Validate PermissionStore privilegeName])
  else (q_reject now privilegeName,
        [Has RoleStore privilegeName; Has PermissionStore privilegeName;
         Warn privilegeName]).

(** [PermissionMap.prototype.resolvePropertyValidity]; only arrays have
    [map]. *)
Definition resolvePropertyValidity (now : nat) (property : value)
    : completion (list promise) * list event :=
  match property with
  | VArr names =>
      (Normal (fst <$> (resolvePrivilege now <$> names)),
       mjoin (snd <$> (resolvePrivilege now <$> names)))
  | _ => (Throw TypeError, [])
  end.

End WithTransition.

End PermissionMap.

Export PermissionMap.

(** ** PermStatePermissionMap *)

Module StatePermissionMap.

(** The compensated map of a state path: [only] and [except] are arrays of
    groups, one group per state that declares names. *)
Record StatePermissionMap : Type := MkStatePermissionMap {
  only : list value;
  except : list value;
  redirectTo : redirection
}.

(** [StatePermissionMap.prototype = new PermPermissionMap()] *)
Definition prototype : StatePermissionMap :=
  MkStatePermissionMap [] [] (RedirRaw VUndefined).

(** The truth value of [v.length]. *)
Definition hasLength (h : gmap loc fobj) (v : value) : completion bool :=
  match v with
  | VUndefined | VNull => Throw TypeError
  | VArr xs => Normal (negb (length xs =? 0)%nat)
  | VStr s => Normal (negb (String.length s =? 0)%nat)
  | VObj fields => Normal (truthy (field fields "length"))
  | VFun l =>
      match h !! l with
      | Some f => Normal (negb (length (fn_params f) =? 0)%nat)
      | None => Normal false
      end
  | _ => Normal false
  end.

Definition isDefinedRedirection (r : redirection) : bool :=
  match r with
  | RedirMap _ => true
  | RedirRaw v => isDefined v
  end.

(** The own properties [angular.extend] copies from a source.  A source
    that is neither an object nor a function is skipped, and the
    normalisation lets no other value through untouched
    ([normalizeRedirectToProperty_raw] below). *)
Definition ownEntries (r : redirection) : gmap string resolver :=
  match r with
  | RedirMap d => d
  | RedirRaw _ => ∅
  end.

(** [angular.extend({}, a, b)]: the properties of [b] override those of
    [a]. *)
Definition angular_extend (a b : redirection) : redirection :=
  RedirMap (ownEntries b ∪ ownEntries a).

(** [StatePermissionMap.prototype.extendPermissionMap] *)
Definition extendPermissionMap (h : gmap loc fobj)
    (this : StatePermissionMap) (permissionMap : PermissionMap)
    : completion StatePermissionMap :=
  match hasLength h (PermissionMap.only permissionMap) with
  | Throw e => Throw e
  | Normal hasOnly =>
      let only' :=
        if hasOnly then (only this ++ [PermissionMap.only permissionMap])%list
        else only this in
      match hasLength h (PermissionMap.except permissionMap) with
      | Throw e => Throw e
      | Normal hasExcept =>
          let except' :=
            if hasExcept
            then (except this ++ [PermissionMap.except permissionMap])%list
            else except this in
          Normal
            (MkStatePermissionMap only' except'
               (if isDefinedRedirection (PermissionMap.redirectTo permissionMap)
                then angular_extend (redirectTo this)
                       (PermissionMap.redirectTo permissionMap)
                else redirectTo this))
      end
  end.

(** A state of the path: [Some permissions] when [state.data] owns a
    [permissions] property ([areSetStatePermissions]). *)
Definition state := option value.

Section WithTransition.

Variable PermTransitionProperties : value.

(** The body of the [angular.forEach] over the path. *)
Definition extendWithState (this : StatePermissionMap) (st : state)
    : M StatePermissionMap :=
  match st with
  | Some permissions =>
      permissionMap <- new_PermissionMap PermTransitionProperties permissions ;;
      h <- read_heap ;;
      match extendPermissionMap h this permissionMap with
      | Normal this' => ret this'
      | Throw e => throw e
      end
  | None => ret this
  end.

Fixpoint extendWithPath (this : StatePermissionMap) (path : list state)
    : M StatePermissionMap :=
  match path with
  | [] => ret this
  | st :: rest =>
      this' <- extendWithState this st ;;
      extendWithPath this' rest
  end.

(** [new StatePermissionMap(state)], given [state.$$permissionState().path]. *)
Definition new_StatePermissionMap (toStatePath : list state)
    : M StatePermissionMap :=
  extendWithPath prototype toStatePath.

End WithTransition.

End StatePermissionMap.
Export StatePermissionMap.

(** ** PermStateAuthorization *)

Module StateAuthorization.

(** What happens while a sequence of groups is evaluated: a collaborator
    event of group [group] at tick [tick], or the settlement of the promise
    of group [group]. *)
Inductive entry : Type :=
  | Check (group : nat) (tick : nat) (e : event)
  | Settled (group : nat) (tick : nat) (fulfilled : bool).

Definition settledEntry (group : nat) (p : promise) : list entry :=
  match p with
  | Pending => []
  | Fulfils t _ => [Settled group t true]
  | Rejects t _ => [Settled group t false]
  end.

(** The first [then] handler after [$q.any]. *)
Definition firstOfArray (resolvedPermissions : value) : value :=
  if isArray resolvedPermissions then index resolvedPermissions 0
  else resolvedPermissions.

Section WithStores.

Variable stores : Stores.

(** The promise pushed for one group: the callback given to
    [prev.finally] runs when [prev] settles, if ever; an exception in it
    leaves the promise unsettled. *)
Definition groupPromise (group : nat) (prev : promise)
    (statePrivileges : value) : promise * list entry :=
  match settled_at prev with
  | None => (Pending, [])
  | Some now =>
      match resolvePropertyValidity stores now statePrivileges with
      | (Normal resolvedStatePrivileges, events) =>
          let p := q_then firstOfArray (q_any now resolvedStatePrivileges) in
          (p, (Check group now <$> events) ++ settledEntry group p)%list
      | (Throw _, events) => (Pending, Check group now <$> events)
      end
  end.

(** The [reduce] over the groups, threading the previous promise. *)
Fixpoint reduceGroups (group : nat) (prev : promise)
    (privilegesNames : list value) : list promise * list entry :=
  match privilegesNames with
  | [] => ([], [])
  | statePrivileges :: rest =>
      let '(p, entries) := groupPromise group prev statePrivileges in
      let '(ps, entries') := reduceGroups (S group) p rest in
      (p :: ps, (entries ++ entries')%list)
  end.

(** [resolveStatePermissionMap(privilegesNames, map)], called at tick
    [now]. *)
Definition resolveStatePermissionMap (now : nat)
    (privilegesNames : list value) : list promise * list entry :=
  match privilegesNames with
  | [] => ([q_reject now VUndefined], [])
  | _ => reduceGroups 0 (q_resolve now VUndefined) privilegesNames
  end.

(** The evaluation of a sequence of groups as both phases perform it:
    [$q.all] over the promises of [resolveStatePermissionMap]. *)
Definition evaluateGroups (now : nat) (privilegesNames : list value)
    : promise :=
  q_all now (fst (resolveStatePermissionMap now privilegesNames)).

(** [resolveOnlyStatePermissionMap(deferred, map)]; the result is the
    settlement of [deferred]. *)
Definition resolveOnlyStatePermissionMap (now : nat)
    (map : StatePermissionMap) : promise :=
  match only map with
  | [] => q_resolve now VUndefined
  | _ =>
      match evaluateGroups now (only map) with
      | Fulfils t resolvedPermissions => Fulfils t resolvedPermissions
      | Rejects t rejectedPermission => Rejects t rejectedPermission
      | Pending => Pending
      end
  end.

(** [resolveExceptStatePermissionMap(deferred, map)] *)
Definition resolveExceptStatePermissionMap (now : nat)
    (map : StatePermissionMap) : promise :=
  match evaluateGroups now (except map) with
  | Fulfils t rejectedPermissions => Rejects t (index rejectedPermissions 0)
  | Rejects t _ => resolveOnlyStatePermissionMap t map
  | Pending => Pending
  end.

Definition authorizeStatePermissionMap (now : nat)
    (map : StatePermissionMap) : promise :=
  resolveExceptStatePermissionMap now map.

Definition authorizeByPermissionMap (now : nat)
    (statePermissionMap : StatePermissionMap) : promise :=
  authorizeStatePermissionMap now statePermissionMap.

End WithStores.

End StateAuthorization.
Export StateAuthorization.

(** ** State objects and [authorizeByState] *)

Module StatePath.

(** [areSetStatePermissions(state)]: does [state.data] own a property
    [permissions]?  [hasOwnProperty] fails on a missing [data], which the
    [try] turns into [false]; properties that [data] merely inherits from
    the parent state are not among its own. *)
Definition areSetStatePermissions (st : value) : bool :=
  match st with
  | VObj fields =>
      match field fields "data" with
      | VObj data => hasOwn data "permissions"
      | _ => false
      end
  | _ => false
  end.

(** [state.data.permissions] of a state object. *)
Definition statePermissions (st : value) : value :=
  match st with
  | VObj fields =>
      match field fields "data" with
      | VObj data => field data "permissions"
      | _ => VUndefined
      end
  | _ => VUndefined
  end.

(** A state object as the [forEach] over the path sees it. *)
Definition toState (st : value) : state :=
  if areSetStatePermissions st then Some (statePermissions st) else None.

Section WithStores.

Variable stores : Stores.
Variable PermTransitionProperties : value.

(** [new PermStatePermissionMap(state)], given the state objects of
    [state.$$permissionState().path]. *)
Definition new_StatePermissionMap_of (path : list value)
    : M StatePermissionMap :=
  new_StatePermissionMap PermTransitionProperties (toState <$> path).

(** [authorizeByState(state)], called at tick [now]. *)
Definition authorizeByState (now : nat) (path : list value) : M promise :=
  permissionMap <- new_StatePermissionMap_of path ;;
  ret (authorizeByPermissionMap stores now permissionMap).

End WithStores.

End StatePath.
Export StatePath.

(** ** Sample data *)

Module Samples.

(** Roles [admin] (granted after one tick) and [banned] (granted after two
    ticks), [editor] defined as a role (refused after three ticks) and as a
    permission (granted at once), permission [read] (granted after one
    tick); nothing else is defined. *)
Definition isName (s : string) (v : value) : bool :=
  match v with VStr s' => String.eqb s s' | _ => false end.

Definition sampleStores : Stores :=
  MkStores
    (fun n => isName "admin" n || isName "banned" n || isName "editor" n)
    (fun n _ =>
       if isName "admin" n then Fulfils 1 n
       else if isName "banned" n then Fulfils 2 n
       else Rejects 3 n)
    (fun n => isName "read" n || isName "editor" n)
    (fun n _ => if isName "read" n then Fulfils 1 n else Fulfils 0 n).

Definition names (l : list string) : value := VArr (VStr <$> l).

(** A function object that ignores its arguments. *)
Definition constantly (v : value) : fobj := FObj [] VUndefined (fun _ => v).

(** [function (rejectedPermission, transitionProperties) { return
    rejectedPermission; }] *)
Definition echoRejected : fobj :=
  FObj ["rejectedPermission"; "transitionProperties"] VUndefined
       (fun args => default VUndefined (args !! 0%nat)).

Definition sampleHeap : gmap loc fobj :=
  <[0%nat := constantly (VStr "admin")]>
    (<[1%nat := echoRejected]> (<[2%nat := constantly VUndefined]> ∅)).

Definition sampleWorld : world := World sampleHeap [].

Definition sampleContext : value := VObj [("toState", VStr "dashboard")].

Definition noServices : string -> option value := fun _ => None.

End Samples.

(** ** The [$state] decorator: [transitionTo] under permissions *)

Module UiRouter.

(** [PermTransitionEventNames] *)
Record EventNames : Type := MkEventNames {
  permissionStart : string;
  permissionAccepted : string;
  permissionDenies : string
}.

Definition PermTransitionEventNames : EventNames :=
  MkEventNames "$stateChangePermissionStart"
               "$stateChangePermissionAccepted"
               "$stateChangePermissionDenied".

(** [s.indexOf(sub)] on strings. *)
Definition indexOf (s sub : string) : Z :=
  match String.index 0 sub s with
  | Some n => Z.of_nat n
  | None => (-1)%Z
  end.

(** [isRelative(stateName)]: [stateName.indexOf('.') === 0 ||
    stateName.indexOf('^') === 0].  On an array [indexOf] looks for an
    element strictly equal to the string; anything else has no callable
    [indexOf]. *)
Definition isRelative (stateName : value) : completion bool :=
  match stateName with
  | VStr s => Normal ((indexOf s "." =? 0)%Z || (indexOf s "^" =? 0)%Z)
  | VArr (VStr s :: _) => Normal (String.eqb s "." || String.eqb s "^")
  | VArr _ => Normal false
  | _ => Throw TypeError
  end.

(** [dst[key] = v] on an object literal. *)
Fixpoint setField (fields : list (string * value)) (key : string) (v : value)
    : list (string * value) :=
  match fields with
  | [] => [(key, v)]
  | (k, v') :: rest =>
      if String.eqb k key then (k, v) :: rest
      else (k, v') :: setField rest key v
  end.

(** The own enumerable properties [angular.extend] copies from a source:
    those of an object literal, the elements of an array under their
    indices; values that are neither objects nor functions are skipped, and
    no such property of a function or a promise is modelled. *)
Definition ownProperties (src : value) : list (string * value) :=
  match src with
  | VObj fields => fields
  | VArr xs => imap (fun i x => (pretty i, x)) xs
  | _ => []
  end.

(** [angular.extend(dst, src)] on an object literal. *)
Definition extendObject (dst : list (string * value)) (src : value)
    : list (string * value) :=
  foldl (fun acc kv => setField acc (fst kv) (snd kv)) dst (ownProperties src).

Definition defaultOptions : list (string * value) :=
  [("location", VBool true); ("inherit", VBool false); ("relative", VNull);
   ("notify", VBool true); ("reload", VBool false); ("$retry", VBool false)].

(** What [transitionTo] asks of the router, the scope and the language:
    [$state.current], [$state.params], [$state.get], the state objects of
    [state.$$permissionState().path], the undecorated
    [$state.$$transitionTo] and [$state.go] (how the promise they return at a
    given tick settles, as a delay), whether the listeners of a broadcast
    prevented the default, and the conversion of a value that is not a
    string into a property name.  ([$state.go] leads back into
    [transitionTo]; here it is taken as given.) *)
Record Router : Type := MkRouter {
  current : value;
  params : value;
  get : value -> value -> value;
  path : value -> list value;
  superTransitionTo : value -> value -> value -> nat -> promise;
  go : value -> value -> value -> nat -> promise;
  defaultPrevented : string -> list value -> bool;
  toString : value -> string
}.

(** What [transitionTo] does to the outside. *)
Inductive effect : Type :=
  | Broadcast (tick : nat) (name : string) (args : list value)
  | Delegated (tick : nat) (name toParams options : value)
  | Went (tick : nat) (state toParams options : value).

(** The tick at which an effect happens. *)
Definition tickOf (e : effect) : nat :=
  match e with
  | Broadcast t _ _ | Delegated t _ _ _ | Went t _ _ _ => t
  end.

(** The effects that hand the transition on: to the undecorated
    [transitionTo], or to [$state.go]. *)
Definition isNavigation (e : effect) : bool :=
  match e with
  | Broadcast _ _ _ => false
  | Delegated _ _ _ _ | Went _ _ _ _ => true
  end.

(** What [transitionTo] throws. *)
Inductive routerError : Type :=
  | NoReferencePoint (name : value)
  | UnfoundState (name : value)
  | Thrown (e : error).

Inductive outcome : Type :=
  | Threw (e : routerError)
  | Returned (p : promise).

(** An [Error] object, of which the name and the message are kept. *)
Definition errorObject (name message : string) : value :=
  VObj [("name", VStr name); ("message", VStr message)].

Definition thrownObject (e : error) : value :=
  match e with
  | TypeError => errorObject "TypeError" ""
  | ReferenceError => errorObject "ReferenceError" ""
  | InjectorError => errorObject "Error" ""
  end.

Section WithRouter.

Variable router : Router.
Variable stores : Stores.
Variable getService : string -> option value.

(** The property name [this.redirectTo[rejectedPermission]] is read at. *)
Definition propertyKey (v : value) : string :=
  match v with
  | VStr s => s
  | _ => toString router v
  end.

(** [statePermissionMap.resolveRedirectState(rejectedPermission)] for a
    rejection reason of any kind: the entry is looked up under the reason's
    property name, the resolver is given the reason itself. *)
Definition resolveRedirectStateOf (PermTransitionProperties : value)
    (h : gmap loc fobj) (now : nat) (this : StatePermissionMap)
    (rejectedPermission : value) : completion promise :=
  let invokeWith redirectState :=
    match invokeResolver getService h redirectState
            [("rejectedPermission", rejectedPermission);
             ("transitionProperties", PermTransitionProperties)] with
    | Normal x => Normal (redirectStateOf (q_when now x))
    | Throw e => Throw e
    end in
  match redirectTo this with
  | RedirMap d =>
      match lookupRedirect d (propertyKey rejectedPermission) with
      | Some redirectState => invokeWith redirectState
      | None => Normal (q_reject now VUndefined)
      end
  | RedirRaw VUndefined | RedirRaw VNull => Throw TypeError
  | RedirRaw raw =>
      let byName := get_prop h raw (propertyKey rejectedPermission) in
      let redirectState :=
        if truthy byName then byName else get_prop h raw "default" in
      if isDefined redirectState then invokeWith (RUser redirectState)
      else Normal (q_reject now VUndefined)
  end.

(** The values [setTransitionProperties] stores, and the
    [PermTransitionProperties] object they make. *)
Record transition : Type := MkTransition {
  toState : value;
  toParams : value;
  fromState : value;
  fromParams : value;
  options : value
}.

Definition transitionProperties (tr : transition) : value :=
  VObj [("toState", toState tr); ("toParams", toParams tr);
        ("fromState", fromState tr); ("fromParams", fromParams tr);
        ("options", options tr)].

(** [delegateTransitionTo()], called at tick [t]. *)
Definition delegateTransitionTo (h : gmap loc fobj) (tr : transition)
    (t : nat) : promise * list effect :=
  let name := get_prop h (toState tr) "name" in
  (shift t (superTransitionTo router name (toParams tr) (options tr) t),
   [Delegated t name (toParams tr) (options tr)]).

(** [handleAuthorizedState()], called at tick [t]. *)
Definition handleAuthorizedState (h : gmap loc fobj) (tr : transition)
    (t : nat) : promise * list effect :=
  let '(p, effects) := delegateTransitionTo h tr t in
  (p,
   Broadcast t (permissionAccepted PermTransitionEventNames)
     [toState tr; toParams tr; options tr] :: effects).

(** The function [handleUnauthorizedState(statePermissionMap)] returns,
    called at tick [t] with the rejection reason; an exception in it rejects
    the promise of the [then]. *)
Definition handleUnauthorizedState (h : gmap loc fobj) (tr : transition)
    (statePermissionMap : StatePermissionMap) (rejectedPermission : value)
    (t : nat) : promise * list effect :=
  let denied :=
    Broadcast t (permissionDenies PermTransitionEventNames)
      [toState tr; toParams tr; options tr] in
  match resolveRedirectStateOf (transitionProperties tr) h t
          statePermissionMap rejectedPermission with
  | Throw e => (Rejects t (thrownObject e), [denied])
  | Normal (Fulfils t' redirect) =>
      let state := get_prop h redirect "state" in
      let toParams' := get_prop h redirect "params" in
      let options' := get_prop h redirect "options" in
      (shift t' (go router state toParams' options' t'),
       [denied; Went t' state toParams' options'])
  | Normal (Rejects t' r) => (Rejects t' r, [denied])
  | Normal Pending => (Pending, [denied])
  end.

(** [isString(to) ? to : to.name] *)
Definition nameOf (h : gmap loc fobj) (to : value) : completion value :=
  match to with
  | VStr _ => Normal to
  | VUndefined | VNull => Throw TypeError
  | _ => Normal (get_prop h to "name")
  end.

(** The first part of [transitionTo], up to [setTransitionProperties]: the
    normalisation of the parameters, the refusal of a relative name without
    a reference point and of an unknown state. *)
Definition prepareTransition (h : gmap loc fobj) (to toParams options : value)
    : routerError + transition :=
  let toParams := if truthy toParams then toParams else VObj [] in
  let options :=
    extendObject defaultOptions
      (if truthy options then options else VObj []) in
  let relative := field options "relative" in
  match nameOf h to with
  | Throw e => inl (Thrown e)
  | Normal name =>
      match (if truthy relative then Normal false else isRelative name) with
      | Throw e => inl (Thrown e)
      | Normal true => inl (NoReferencePoint name)
      | Normal false =>
          let toState := get router name relative in
          if negb (truthy toState) then inl (UnfoundState name)
          else inr (MkTransition toState toParams (current router)
                      (params router) (VObj options))
      end
  end.

Definition startArgs (tr : transition) : list value :=
  [toState tr; toParams tr; fromState tr; fromParams tr; options tr].

Definition permissionArgs (tr : transition) : list value :=
  [toState tr; toParams tr; options tr].

(** The [then] on the authorization's promise. *)
Definition afterAuthorization (h : gmap loc fobj) (tr : transition)
    (statePermissionMap : StatePermissionMap) (authorization : promise)
    : promise * list effect :=
  match authorization with
  | Fulfils t _ => handleAuthorizedState h tr t
  | Rejects t rejectedPermission =>
      handleUnauthorizedState h tr statePermissionMap rejectedPermission t
  | Pending => (Pending, [])
  end.

(** The rest of [transitionTo], from the first broadcast on, at tick
    [now]. *)
Definition performTransition (tr : transition) (now : nat) (w : world)
    : outcome * list effect * world :=
  let started := Broadcast now "$stateChangeStart" (startArgs tr) in
  if defaultPrevented router "$stateChangeStart" (startArgs tr)
  then (Returned (q_reject now (errorObject "Error" "transition cancelled")),
        [started], w)
  else
    let asked :=
      Broadcast now (permissionStart PermTransitionEventNames)
        (permissionArgs tr) in
    if defaultPrevented router (permissionStart PermTransitionEventNames)
         (permissionArgs tr)
    then
      let '(p, effects) := delegateTransitionTo (heap w) tr now in
      (Returned p, started :: asked :: effects, w)
    else
      match new_StatePermissionMap_of (transitionProperties tr)
              (path router (toState tr)) w with
      | (Throw e, w1) => (Threw (Thrown e), [started; asked], w1)
      | (Normal statePermissionMap, w1) =>
          let '(p, effects) :=
            afterAuthorization (heap w1) tr statePermissionMap
              (authorizeByPermissionMap stores now statePermissionMap) in
          (Returned p, started :: asked :: effects, w1)
      end.

(** [$state.transitionTo(to, toParams, options)] as decorated, called at
    tick [now]. *)
Definition transitionTo (to toParams options : value) (now : nat) (w : world)
    : outcome * list effect * world :=
  match prepareTransition (heap w) to toParams options with
  | inl e => (Threw e, [], w)
  | inr tr => performTransition tr now w
  end.

End WithRouter.

End UiRouter.

(** ** More sample data *)

Module MoreSamples.

(** Stores in which the role [slow] is defined but its validation never
    settles; every other name is a permission granted at once. *)
Definition stalledStores : Stores :=
  MkStores
    (fun n => Samples.isName "slow" n)
    (fun _ _ => Pending)
    (fun _ => true)
    (fun n _ => Fulfils 0 n).

(** A router with three protected states: [admin] asks for the role
    [admin], [vault] for the unknown [ghost] and redirects to [login], [bare]
    asks for [ghost] and names no redirect.  The undecorated transition and
    [go] succeed after one tick; no listener prevents anything. *)
Definition protectedState (name only : string) (redirect : list (string * value))
    : value :=
  VObj [("name", VStr name);
        ("data",
         VObj [("permissions",
                VObj (("only", Samples.names [only]) :: redirect))])].

Definition sampleStateOf (name : value) : value :=
  if Samples.isName "admin" name then protectedState "admin" "admin" []
  else if Samples.isName "vault" name
  then protectedState "vault" "ghost" [("redirectTo", VStr "login")]
  else if Samples.isName "bare" name then protectedState "bare" "ghost" []
  else VUndefined.

Definition sampleRouter : UiRouter.Router :=
  UiRouter.MkRouter
    (VObj [("name", VStr "home")]) (VObj [])
    (fun name _ => sampleStateOf name)
    (fun st => [VObj [("name", VStr "root")]; st])
    (fun name _ _ _ => Fulfils 1 name)
    (fun state _ _ _ => Fulfils 1 state)
    (fun _ _ => false)
    (fun _ => "[object Object]").


End MoreSamples.

(** * Properties *)

(** ** Facts about the promise combinators *)

Section QFacts.

Implicit Types (ps : list promise) (p : promise).
Implicit Types (sel : promise -> option (nat * value)).

Lemma earliest_elem sel ps t v :
  earliest sel ps = Some (t, v) -> exists p, p ∈ ps /\ sel p = Some (t, v).
Proof.
  revert t v. induction ps as [|p ps IH]; intros t v; simpl; [done|].
  destruct (sel p) as [[t1 v1]|] eqn:Hp.
  - destruct (earliest sel ps) as [[t2 v2]|] eqn:Hrest.
    + destruct (t1 <=? t2)%nat; intros [= <- <-].
      * exists p. split; [left | done].
      * destruct (IH _ _ eq_refl) as (q & Hq & Hsel).
        exists q. split; [by right | done].
    + intros [= <- <-]. exists p. split; [left | done].
  - intros H. destruct (IH _ _ H) as (q & Hq & Hsel).
    exists q. split; [by right | done].
Qed.

Lemma latest_elem sel ps t v :
  latest sel ps = Some (t, v) -> exists p, p ∈ ps /\ sel p = Some (t, v).
Proof.
  revert t v. induction ps as [|p ps IH]; intros t v; simpl; [done|].
  destruct (sel p) as [[t1 v1]|] eqn:Hp.
  - destruct (latest sel ps) as [[t2 v2]|] eqn:Hrest.
    + destruct (t2 <? t1)%nat; intros [= <- <-].
      * exists p. split; [left | done].
      * destruct (IH _ _ eq_refl) as (q & Hq & Hsel).
        exists q. split; [by right | done].
    + intros [= <- <-]. exists p. split; [left | done].
  - intros H. destruct (IH _ _ H) as (q & Hq & Hsel).
    exists q. split; [by right | done].
Qed.

Lemma earliest_None sel ps :
  earliest sel ps = None <-> Forall (fun p => sel p = None) ps.
Proof.
  induction ps as [|p ps IH]; simpl; [by split; [constructor|]|].
  destruct (sel p) as [[t1 v1]|] eqn:Hp.
  - split.
    + destruct (earliest sel ps) as [[t2 v2]|]; [|done].
      by destruct (t1 <=? t2)%nat.
    + intros H. apply Forall_cons in H as [H _]. congruence.
  - rewrite IH. split; [by constructor | by intros [_ ?]%Forall_cons].
Qed.

Lemma latest_None sel ps :
  latest sel ps = None <-> Forall (fun p => sel p = None) ps.
Proof.
  induction ps as [|p ps IH]; simpl; [by split; [constructor|]|].
  destruct (sel p) as [[t1 v1]|] eqn:Hp.
  - split.
    + destruct (latest sel ps) as [[t2 v2]|]; [|done].
      by destruct (t2 <? t1)%nat.
    + intros H. apply Forall_cons in H as [H _]. congruence.
  - rewrite IH. split; [by constructor | by intros [_ ?]%Forall_cons].
Qed.

(** The head wins when nothing selected behind it is strictly earlier. *)
Lemma earliest_head sel p ps t v :
  sel p = Some (t, v) ->
  (forall q t' v', q ∈ ps -> sel q = Some (t', v') -> t <= t') ->
  earliest sel (p :: ps) = Some (t, v).
Proof.
  intros Hp Hafter. simpl. rewrite Hp.
  destruct (earliest sel ps) as [[t2 v2]|] eqn:Hrest; [|done].
  destruct (earliest_elem _ _ _ _ Hrest) as (q & Hq & Hsel).
  specialize (Hafter _ _ _ Hq Hsel).
  by apply Nat.leb_le in Hafter as ->.
Qed.

Lemma earliest_skip sel p ps :
  sel p = None -> earliest sel (p :: ps) = earliest sel ps.
Proof. intros Hp. simpl. by rewrite Hp. Qed.

Lemma fulfilment_rejection p : is_Some (fulfilment p) -> rejection p = None.
Proof. by destruct p; intros [? ?]. Qed.

Lemma fulfilment_not_pending p : is_Some (fulfilment p) -> is_pending p = false.
Proof. by destruct p; intros [? ?]. Qed.

Lemma existsb_pending_false ps :
  Forall (fun p => is_Some (fulfilment p)) ps -> existsb is_pending ps = false.
Proof.
  induction 1 as [|p ps Hp _ IH]; simpl; [done|].
  by rewrite (fulfilment_not_pending _ Hp).
Qed.

(** [$q.all] is fulfilled exactly when every promise is. *)
Lemma q_all_fulfilled now ps :
  Forall (fun p => is_Some (fulfilment p)) ps ->
  q_all now ps = Fulfils (last_tick now ps) (VArr (payloads ps)).
Proof.
  intros Hall. unfold q_all.
  assert (earliest rejection ps = None) as ->.
  { apply earliest_None. eapply Forall_impl; [done|].
    intros p. apply fulfilment_rejection. }
  by rewrite existsb_pending_false.
Qed.

Lemma q_all_fulfilled_inv now ps t v :
  q_all now ps = Fulfils t v ->
  Forall (fun p => is_Some (fulfilment p)) ps.
Proof.
  unfold q_all.
  destruct (earliest rejection ps) as [[t1 r1]|] eqn:Hrej; [done|].
  destruct (existsb is_pending ps) eqn:Hpend; [done|]. intros _.
  apply earliest_None in Hrej.
  apply Forall_forall. intros p Hp.
  rewrite Forall_forall in Hrej. specialize (Hrej _ Hp).
  destruct p as [|t' v'|t' r']; simpl in *; [|by eexists|done].
  exfalso. assert (existsb is_pending ps = true); [|congruence].
  apply existsb_exists. exists Pending. split; [by apply list_elem_of_In|done].
Qed.

Lemma payloads_cons_fulfilled t v ps :
  payloads (Fulfils t v :: ps) = v :: payloads ps.
Proof. reflexivity. Qed.

End QFacts.

(** ** Facts about the evaluation of groups *)

Section GroupFacts.

Variable stores : Stores.

Implicit Types (ps : list promise) (p prev : promise) (names : list value).

Lemma shift_after now p t : settled_at (shift now p) = Some t -> now <= t.
Proof. destruct p; simpl; [done| |]; intros [= <-]; lia. Qed.

Lemma resolvePrivilege_after now name t :
  settled_at (fst (resolvePrivilege stores now name)) = Some t -> now <= t.
Proof.
  unfold resolvePrivilege.
  destruct (hasRoleDefinition stores name); simpl; [apply shift_after|].
  destruct (hasPermissionDefinition stores name); simpl; [apply shift_after|].
  intros [= <-]. lia.
Qed.

Lemma resolvePropertyValidity_after now property ps p t :
  fst (resolvePropertyValidity stores now property) = Normal ps ->
  p ∈ ps -> settled_at p = Some t -> now <= t.
Proof.
  destruct property; simpl; try done. intros [= <-].
  rewrite <- list_fmap_compose.
  intros (name & -> & _)%list_elem_of_fmap. apply resolvePrivilege_after.
Qed.

Lemma q_any_after now ps t :
  (forall p t', p ∈ ps -> settled_at p = Some t' -> now <= t') ->
  settled_at (q_any now ps) = Some t -> now <= t.
Proof.
  intros Hps. unfold q_any.
  destruct (earliest fulfilment ps) as [[t1 v1]|] eqn:Hful.
  - simpl. intros [= <-].
    destruct (earliest_elem _ _ _ _ Hful) as (p & Hp & Hsel).
    apply (Hps p); [done|]. by destruct p; simplify_eq/=.
  - destruct (existsb is_pending ps); [done|].
    destruct (latest rejection ps) as [[t1 r1]|] eqn:Hrej; simpl.
    + intros [= <-].
      destruct (latest_elem _ _ _ _ Hrej) as (p & Hp & Hsel).
      apply (Hps p); [done|]. by destruct p; simplify_eq/=.
    + intros [= <-]. lia.
Qed.

Lemma settled_at_q_then f p : settled_at (q_then f p) = settled_at p.
Proof. by destruct p. Qed.

(** A group's promise settles, if ever, no earlier than the previous one. *)
Lemma groupPromise_after group prev statePrivileges t :
  settled_at (fst (groupPromise stores group prev statePrivileges)) = Some t ->
  exists t0, settled_at prev = Some t0 /\ t0 <= t.
Proof.
  unfold groupPromise.
  destruct (settled_at prev) as [now|]; [|done].
  destruct (resolvePropertyValidity stores now statePrivileges)
    as [[ps|e] events] eqn:Hvalid; simpl; [|done].
  rewrite settled_at_q_then. intros Ht. exists now. split; [done|].
  eapply q_any_after; [|done]. intros p t' Hp.
  eapply resolvePropertyValidity_after; [|done]. by rewrite Hvalid.
Qed.

Lemma reduceGroups_cons group prev statePrivileges rest :
  reduceGroups stores group prev (statePrivileges :: rest) =
  (fst (groupPromise stores group prev statePrivileges)
     :: fst (reduceGroups stores (S group)
               (fst (groupPromise stores group prev statePrivileges)) rest),
   (snd (groupPromise stores group prev statePrivileges)
      ++ snd (reduceGroups stores (S group)
                (fst (groupPromise stores group prev statePrivileges)) rest))%list).
Proof.
  simpl. destruct (groupPromise stores group prev statePrivileges) as [p es].
  simpl. by destruct (reduceGroups stores (S group) p rest).
Qed.

(** Every promise of the chain settles, if ever, after the promise the
    chain started from. *)
Lemma reduceGroups_after privilegesNames :
  forall group prev p t,
    p ∈ fst (reduceGroups stores group prev privilegesNames) ->
    settled_at p = Some t ->
    exists t0, settled_at prev = Some t0 /\ t0 <= t.
Proof.
  induction privilegesNames as [|g gs IH]; intros group prev p t.
  - simpl. by intros ?%elem_of_nil.
  - rewrite reduceGroups_cons. simpl.
    intros [->|Hin]%elem_of_cons Ht.
    + by apply groupPromise_after in Ht.
    + destruct (IH _ _ _ _ Hin Ht) as (t1 & Ht1 & Hle).
      destruct (groupPromise_after _ _ _ _ Ht1) as (t0 & Ht0 & Hle0).
      exists t0. split; [done | lia].
Qed.

(** In a chain, the first rejection in list order is the first to happen. *)
Lemma reduceGroups_first_rejection privilegesNames :
  forall group prev before t r after,
    fst (reduceGroups stores group prev privilegesNames)
      = (before ++ Rejects t r :: after)%list ->
    Forall (fun p => rejection p = None) before ->
    earliest rejection (before ++ Rejects t r :: after)%list = Some (t, r).
Proof.
  induction privilegesNames as [|g gs IH];
    intros group prev before t r after.
  - simpl. by destruct before.
  - rewrite reduceGroups_cons. simpl.
    destruct before as [|p before]; simpl.
    + intros [= Hp Hafter] _.
      change (earliest rejection (Rejects t r :: after) = Some (t, r)).
      apply earliest_head; [done|].
      intros q t' v' Hq Hsel. rewrite <- Hafter, Hp in Hq.
      destruct (reduceGroups_after _ _ _ q t' Hq) as (t0 & Ht0 & Hle).
      { by destruct q; simplify_eq/=. }
      by simplify_eq/=.
    + intros [= Hp Hrest] [Hnone Hbefore]%Forall_cons.
      rewrite Hnone. eapply IH; [|done]. by rewrite <- Hrest.
Qed.

End GroupFacts.

Section MoreGroupFacts.

Variable stores : Stores.

Lemma reduceGroups_length privilegesNames :
  forall group prev,
    length (fst (reduceGroups stores group prev privilegesNames))
    = length privilegesNames.
Proof.
  induction privilegesNames as [|g gs IH]; intros group prev; [done|].
  rewrite reduceGroups_cons. simpl. by rewrite IH.
Qed.

Lemma resolveStatePermissionMap_nonempty now g gs :
  resolveStatePermissionMap stores now (g :: gs)
  = reduceGroups stores 0 (q_resolve now VUndefined) (g :: gs).
Proof. reflexivity. Qed.

(** When every promise is rejected, [$q.any] reports the final one. *)
Lemma q_any_all_rejected now (ps : list promise) :
  ps <> [] ->
  Forall (fun p => is_Some (rejection p)) ps ->
  exists t r, latest rejection ps = Some (t, r) /\ q_any now ps = Rejects t r.
Proof.
  intros Hne Hall. unfold q_any.
  assert (earliest fulfilment ps = None) as ->.
  { apply earliest_None. eapply Forall_impl; [done|].
    by intros [] [? ?]. }
  assert (existsb is_pending ps = false) as ->.
  { clear Hne. induction Hall as [|p ps [? Hp] _ IH]; [done|].
    simpl. rewrite IH. by destruct p. }
  destruct (latest rejection ps) as [[t r]|] eqn:Hlatest; [by eauto|].
  apply latest_None in Hlatest. destruct ps as [|p ps]; [done|].
  apply Forall_cons in Hall as [[? Hp] _].
  apply Forall_cons in Hlatest as [Hnone _]. congruence.
Qed.

(** Rejections at one and the same tick: the last in the list is kept. *)
Lemma latest_same_tick now (rs : list value) r :
  latest rejection (Rejects now <$> (rs ++ [r])%list) = Some (now, r).
Proof.
  induction rs as [|r' rs IH]; [done|].
  rewrite <- app_comm_cons, fmap_cons. cbn [latest rejection].
  rewrite IH. by rewrite Nat.ltb_irrefl.
Qed.

Lemma groupPromise_first now group names :
  fst (groupPromise stores group (q_resolve now VUndefined) (VArr names))
  = q_then firstOfArray
      (q_any now (fst <$> (resolvePrivilege stores now <$> names))).
Proof. reflexivity. Qed.

End MoreGroupFacts.

(** ** Facts about matching groups *)

Section ExceptFacts.

Variable stores : Stores.




End ExceptFacts.

(** ** Facts about the record of an evaluation *)

Section TraceFacts.

Variable stores : Stores.

(** The entries of one group: its checks, all at the tick at which the
    previous promise settled, then its own settlement. *)
Lemma groupPromise_check group prev statePrivileges j m t e :
  snd (groupPromise stores group prev statePrivileges) !! j
    = Some (Check m t e) ->
  m = group /\ settled_at prev = Some t.
Proof.
  unfold groupPromise. destruct (settled_at prev) as [now|]; [|done].
  destruct (resolvePropertyValidity stores now statePrivileges)
    as [[ps|err] events]; simpl.
  - intros [Hj|[_ Hj]]%lookup_app_Some.
    + apply list_lookup_fmap_Some in Hj as (ev & ? & ?). by simplify_eq.
    + destruct (q_then firstOfArray (q_any now ps)); simpl in Hj;
        [done| |]; by destruct (j - _).
  - intros Hj. apply list_lookup_fmap_Some in Hj as (ev & ? & ?).
    by simplify_eq.
Qed.

Lemma groupPromise_settled group prev statePrivileges t :
  settled_at (fst (groupPromise stores group prev statePrivileges)) = Some t ->
  exists i ok,
    snd (groupPromise stores group prev statePrivileges) !! i
    = Some (Settled group t ok).
Proof.
  unfold groupPromise. destruct (settled_at prev) as [now|]; [|done].
  destruct (resolvePropertyValidity stores now statePrivileges)
    as [[ps|err] events]; simpl; [|done].
  intros Ht. exists (length (Check group now <$> events)).
  destruct (q_then firstOfArray (q_any now ps)) as [|t' v|t' r];
    simpl in *; [done| |]; simplify_eq;
    eexists; rewrite lookup_app_r, Nat.sub_diag; done.
Qed.

Lemma reduceGroups_trace privilegesNames :
  forall group prev j m t e,
    snd (reduceGroups stores group prev privilegesNames) !! j
      = Some (Check m t e) ->
    group <= m
    /\ (m = group -> settled_at prev = Some t)
    /\ (forall n, m = S n -> group <= n ->
        exists i t' ok,
          i < j
          /\ snd (reduceGroups stores group prev privilegesNames) !! i
             = Some (Settled n t' ok)
          /\ t' <= t).
Proof.
  induction privilegesNames as [|g gs IH]; intros group prev j m t e.
  - done.
  - rewrite reduceGroups_cons. cbn [snd].
    intros [Hj|[Hlen Hj]]%lookup_app_Some.
    + apply groupPromise_check in Hj as [-> Hprev].
      split; [done|]. split; [done|]. intros n -> Hle. lia.
    + destruct (IH _ _ _ _ _ _ Hj) as (Hle & Hsame & Hbefore).
      split; [lia|]. split; [lia|]. intros n -> Hgn.
      destruct (decide (n = group)) as [->|Hne].
      * specialize (Hsame eq_refl).
        destruct (groupPromise_settled _ _ _ _ Hsame) as (i & ok & Hi).
        exists i, t, ok. split; [|split; [|done]].
        -- apply lookup_lt_Some in Hi. lia.
        -- by apply lookup_app_l_Some.
      * destruct (Hbefore n eq_refl) as (i & t' & ok & Hi & Hlook & Ht'); [lia|].
        exists (length (snd (groupPromise stores group prev g)) + i), t', ok.
        split; [lia|]. split; [|done].
        rewrite lookup_app_r; [|lia].
        by replace (length (snd (groupPromise stores group prev g)) + i
                    - length (snd (groupPromise stores group prev g)))
          with i by lia.
Qed.

End TraceFacts.

(** ** Facts about the normalisation of [redirectTo] *)

Section NormalizationFacts.

Implicit Types (h : gmap loc fobj) (w : world) (v : value) (l : loc).

Lemma world_eta w : World (heap w) (calls w) = w.
Proof. by destruct w. Qed.

Lemma isInjectable_fun h l :
  isInjectable h (VFun l)
  = match h !! l with Some f => isArray (fn_inject f) | None => false end.
Proof. unfold isInjectable. simpl. by destruct (h !! l). Qed.

Lemma isInjectable_heap_irrelevant h v :
  isFunction v = false -> isInjectable h v = isInjectable ∅ v.
Proof. by destruct v. Qed.

(** One step of the [forEach], in closed form. *)
Lemma normalizeEntry_eq m key v w :
  normalizeEntry m key v w
  = (Normal (addEntry m (key, v)), World (annotateHeap (heap w) v) (calls w)).
Proof.
  unfold normalizeEntry, addEntry, entryOf, annotateHeap, bind, read_heap, ret.
  simpl. destruct (isFunction v) eqn:Hfun.
  - destruct v as [| | | | | | |l|]; try done. simpl.
    destruct (isInjectable (heap w) (VFun l)); simpl; by rewrite ?world_eta.
  - rewrite (isInjectable_heap_irrelevant (heap w) v Hfun). simpl.
    destruct (isInjectable ∅ v);
      [|destruct (isObject v); [|destruct (isString v)]];
      destruct v; simpl in *; try done; by rewrite world_eta.
Qed.

Lemma normalizeEntries_eq fields :
  forall m w,
    normalizeEntries m fields w
    = (Normal (foldl addEntry m fields),
       World (foldl annotateHeap (heap w) (snd <$> fields)) (calls w)).
Proof.
  induction fields as [|[key v] fields IH]; intros m w; simpl.
  - unfold ret. by rewrite world_eta.
  - unfold bind. rewrite normalizeEntry_eq. by rewrite IH.
Qed.

Lemma annotateHeap_step h v l :
  annotateHeap h v !! l = h !! l
  \/ (v = VFun l
      /\ exists f, h !! l = Some f /\ isArray (fn_inject f) = false
                   /\ annotateHeap h v !! l = Some (annotated injectNames f)).
Proof.
  destruct v as [| | | | | | |l'|]; simpl; try by left.
  rewrite isInjectable_fun.
  destruct (h !! l') as [f|] eqn:Hl'.
  - destruct (isArray (fn_inject f)) eqn:Harr; [by left|].
    destruct (decide (l' = l)) as [->|Hne].
    + right. split; [done|]. exists f. rewrite lookup_alter_eq, Hl'. done.
    + left. by rewrite lookup_alter_ne.
  - left. destruct (decide (l' = l)) as [->|Hne].
    + by rewrite lookup_alter_eq, Hl'.
    + by rewrite lookup_alter_ne.
Qed.

Lemma annotateAll_step (vs : list value) :
  forall h l,
    foldl annotateHeap h vs !! l = h !! l
    \/ (VFun l ∈ vs
        /\ exists f, h !! l = Some f /\ isArray (fn_inject f) = false
                     /\ foldl annotateHeap h vs !! l
                        = Some (annotated injectNames f)).
Proof.
  induction vs as [|v vs IH]; intros h l; simpl; [by left|].
  destruct (IH (annotateHeap h v) l) as [Hsame|(Hin & f' & Hf' & Harr' & Hres)];
    destruct (annotateHeap_step h v l) as [Hstep|(-> & f & Hf & Harr & Hstep)].
  - left. congruence.
  - right. split; [left|]. exists f. by rewrite Hsame.
  - right. split; [by right|]. exists f'. by rewrite <- Hstep.
  - rewrite Hstep in Hf'. by simplify_eq.
Qed.


Lemma annotateAll_keeps (vs : list value) h l f :
  h !! l = Some f -> isArray (fn_inject f) = true ->
  foldl annotateHeap h vs !! l = Some f.
Proof.
  intros Hf Harr.
  destruct (annotateAll_step vs h l) as [->|(_ & f' & Hf' & Harr' & _)];
    [done|]. rewrite Hf in Hf'. simplify_eq. congruence.
Qed.

(** A function among the property values that is not yet annotated is
    annotated at the end; its parameters and body are those it had. *)
Lemma annotateAll_hit (vs : list value) :
  forall h l f,
    VFun l ∈ vs -> h !! l = Some f -> isArray (fn_inject f) = false ->
    foldl annotateHeap h vs !! l = Some (annotated injectNames f).
Proof.
  induction vs as [|v vs IH]; intros h l f Hin Hf Harr; simpl.
  - by apply elem_of_nil in Hin.
  - destruct (annotateHeap_step h v l)
      as [Hstep|(-> & f' & Hf' & Harr' & Hstep)].
    + apply elem_of_cons in Hin as [<-|Hin].
      * exfalso. simpl in Hstep. rewrite isInjectable_fun, Hf, Harr in Hstep.
        rewrite lookup_alter_eq, Hf in Hstep. simpl in Hstep.
        injection Hstep as Heq. by rewrite <- Heq in Harr.
      * apply IH; [done| |done]. by rewrite Hstep.
    + rewrite Hf in Hf'. simplify_eq. by apply annotateAll_keeps.
Qed.



End NormalizationFacts.

(** ** Facts about the construction of a map *)

Section ConstructionFacts.

Variable PermTransitionProperties : value.


Lemma normalizeFunctionRedirectionRule_eq (redirectTo : value) (w : world) :
  normalizeFunctionRedirectionRule redirectTo w
  = (Normal (RedirMap {[ "default" := RUser redirectTo ]}),
     World (annotateHeap (heap w) redirectTo) (calls w)).
Proof.
  destruct w as [h c].
  unfold normalizeFunctionRedirectionRule, bind, read_heap, set_inject, ret,
    annotateHeap. simpl.
  destruct redirectTo as [| | | | | | |l|];
    by destruct (isInjectable h _).
Qed.



(** A property that is not a dangling function reference is normalised
    without an exception. *)
Lemma normalizeOnlyAndExceptProperty_normal (property : value) (w : world) :
  (forall l, property = VFun l -> is_Some (heap w !! l)) ->
  exists a w1,
    normalizeOnlyAndExceptProperty PermTransitionProperties property w
    = (Normal a, w1)
    /\ heap w1 = heap w.
Proof.
  intros Halloc. unfold normalizeOnlyAndExceptProperty, ret, call.
  destruct property as [| | | | | | |l|]; simpl; try by eexists _, _.
  destruct (Halloc l eq_refl) as [f ->]. by eexists _, _.
Qed.

(** An object of no accepted shape makes the normalisation throw. *)
Lemma normalizeRedirectToProperty_throws (redirectTo : value) (w : world) :
  isObject redirectTo = true ->
  isInjectable (heap w) redirectTo = false ->
  get_prop (heap w) redirectTo "state" = VUndefined ->
  get_prop (heap w) redirectTo "default" = VUndefined ->
  normalizeRedirectToProperty redirectTo w = (Throw ReferenceError, w).
Proof.
  intros Hobject Hinj Hstate Hdefault.
  unfold normalizeRedirectToProperty, bind, read_heap. simpl.
  rewrite Hinj, Hobject.
  unfold isObjectSingleRedirectionRule, isObjectMultipleRedirectionRule.
  rewrite Hstate, Hdefault. by destruct redirectTo.
Qed.

(** Only a value that is no string, function or object is left as it is. *)
Lemma normalizeRedirectToProperty_raw (redirectTo raw : value) (w w' : world) :
  normalizeRedirectToProperty redirectTo w = (Normal (RedirRaw raw), w') ->
  raw = redirectTo
  /\ isString redirectTo = false
  /\ isFunction redirectTo = false
  /\ isObject redirectTo = false.
Proof.
  unfold normalizeRedirectToProperty, bind, read_heap. simpl.
  destruct (isString redirectTo); [done|].
  destruct (isInjectable (heap w) redirectTo || isFunction redirectTo) eqn:Hfn.
  { by rewrite normalizeFunctionRedirectionRule_eq. }
  apply orb_false_elim in Hfn as [_ Hfn].
  destruct (isObject redirectTo).
  - destruct (isObjectSingleRedirectionRule (heap w) redirectTo); [done|].
    destruct (isObjectMultipleRedirectionRule (heap w) redirectTo); [|done].
    unfold normalizeObjectMultipleRedirectionRule, bind, ret.
    by rewrite normalizeEntries_eq.
  - unfold ret. by intros [= <- <-].
Qed.

End ConstructionFacts.

(** ** The model at work *)

(** Within a group the first success wins, whatever its position. *)
Example any_first_success :
  q_any 0 [Rejects 50 (VStr "p1"); Fulfils 10 (VStr "p2")]
  = Fulfils 10 (VStr "p2").
Proof. reflexivity. Qed.

(** When all fail, the rejection that settles last is reported. *)
Example any_last_failure :
  q_any 0 [Rejects 50 (VStr "p1"); Rejects 10 (VStr "p2")]
  = Rejects 50 (VStr "p1").
Proof. reflexivity. Qed.

(** [redirectTo: "login"] gives the target [{state: "login"}] for any
    rejected name. *)
Example redirect_string :
  resolveRedirectState Samples.sampleContext Samples.noServices
    Samples.sampleHeap 0
    (MkPermissionMap (VArr []) (VArr [])
       (normalizeStringRedirectionRule (VStr "login")))
    "anything"
  = Normal (Fulfils 0 (VObj [("state", VStr "login")])).
Proof. vm_compute. reflexivity. Qed.

(** [redirectTo: {default: "login", admin: "dashboard"}] *)
Example redirect_dictionary :
  let d := foldl addEntry ∅
             [("default", VStr "login"); ("admin", VStr "dashboard")] in
  resolveRedirectState Samples.sampleContext Samples.noServices
    Samples.sampleHeap 0
    (MkPermissionMap (VArr []) (VArr []) (RedirMap d)) "admin"
  = Normal (Fulfils 0 (VObj [("state", VStr "dashboard")]))
  /\ resolveRedirectState Samples.sampleContext Samples.noServices
       Samples.sampleHeap 0
       (MkPermissionMap (VArr []) (VArr []) (RedirMap d)) "other"
     = Normal (Fulfils 0 (VObj [("state", VStr "login")])).
Proof. split; vm_compute; reflexivity. Qed.

(** ** The claims *)

Import Samples.

(** C1 (as stated, refuted).  With role [admin] granted and [nobody]
    defined nowhere, the sequence of groups [[admin]], [[nobody]] is
    evaluated to a failure although its first group succeeds; when no
    name of [only] = [[ghost]], [[nobody]] validates, the authorization is
    rejected with [ghost], the failing name of the first group, not with the
    one of the last group; and when [except] matches, the rejection does not
    name a privilege of [only] at all. *)
Lemma C1_first_success_does_not_win :
  fst (resolveStatePermissionMap sampleStores 0
         [names ["admin"]; names ["nobody"]])
    = [Fulfils 1 (VStr "admin"); Rejects 1 (VStr "nobody")]
  /\ evaluateGroups sampleStores 0 [names ["admin"]; names ["nobody"]]
     = Rejects 1 (VStr "nobody")
  /\ authorizeByPermissionMap sampleStores 0
       (MkStatePermissionMap [names ["ghost"]; names ["nobody"]] []
          (RedirRaw VUndefined))
     = Rejects 0 (VStr "ghost")
  /\ authorizeByPermissionMap sampleStores 0
       (MkStatePermissionMap [names ["ghost"]] [names ["admin"]]
          (RedirRaw VUndefined))
     = Rejects 1 (VStr "admin").
Proof. repeat split; vm_compute; reflexivity. Qed.

(** C1 (amended).  The evaluation of a non-empty sequence of groups, as
    both phases of the authorization perform it, makes one promise per
    group; it succeeds exactly when every group succeeds (the success of
    the first group is not enough), with the groups' results in order; it
    fails as soon as one group fails, and the reported failure is that of
    the first failing group.  In particular, when the except phase fails,
    [only] is not empty and no name of its first group validates, the
    authorization is rejected with the reason of the rejection that settled
    last in the first group of [only]; when these names are defined in
    neither store that reason is the last name of the group. *)
Theorem C1_all_groups_or_first_failure
    (stores : Stores) (now : nat) (privilegesNames : list value)
    (map : StatePermissionMap) :
  privilegesNames <> [] ->
  let ps := fst (resolveStatePermissionMap stores now privilegesNames) in
  length ps = length privilegesNames
  /\ (Forall (fun p => is_Some (fulfilment p)) ps
      <-> exists t, evaluateGroups stores now privilegesNames
                    = Fulfils t (VArr (payloads ps)))
  /\ (forall before t r after,
        ps = (before ++ Rejects t r :: after)%list ->
        Forall (fun p => rejection p = None) before ->
        evaluateGroups stores now privilegesNames = Rejects t r)
  /\ (forall t0 r0 group rest,
        evaluateGroups stores now (except map) = Rejects t0 r0 ->
        only map = VArr group :: rest ->
        group <> [] ->
        Forall (fun name =>
                  is_Some (rejection (fst (resolvePrivilege stores t0 name))))
               group ->
        exists t r,
          latest rejection (fst <$> (resolvePrivilege stores t0 <$> group))
            = Some (t, r)
          /\ authorizeByPermissionMap stores now map = Rejects t r)
  /\ (forall t0 r0 group name rest,
        evaluateGroups stores now (except map) = Rejects t0 r0 ->
        only map = VArr (group ++ [name])%list :: rest ->
        Forall (fun name =>
                  hasRoleDefinition stores name = false
                  /\ hasPermissionDefinition stores name = false)
               (group ++ [name])%list ->
        authorizeByPermissionMap stores now map = Rejects t0 name).
Proof.
  intros Hne ps.
  assert (forall now gs before t r after,
            gs <> [] ->
            fst (resolveStatePermissionMap stores now gs)
              = (before ++ Rejects t r :: after)%list ->
            Forall (fun p => rejection p = None) before ->
            evaluateGroups stores now gs = Rejects t r) as Hfirst.
  { clear. intros now gs before t r after Hgs Hps Hbefore.
    unfold evaluateGroups, q_all. rewrite Hps.
    destruct gs as [|g gs]; [done|].
    rewrite resolveStatePermissionMap_nonempty in Hps.
    by rewrite (reduceGroups_first_rejection _ _ _ _ _ _ _ _ Hps Hbefore). }
  assert (forall t0 r0 group rest t r,
            evaluateGroups stores now (except map) = Rejects t0 r0 ->
            only map = VArr group :: rest ->
            q_any t0 (fst <$> (resolvePrivilege stores t0 <$> group))
              = Rejects t r ->
            authorizeByPermissionMap stores now map = Rejects t r) as Honly.
  { intros t0 r0 group rest t r Hexcept Honly Hany.
    unfold authorizeByPermissionMap, authorizeStatePermissionMap,
      resolveExceptStatePermissionMap. rewrite Hexcept.
    unfold resolveOnlyStatePermissionMap. rewrite Honly.
    rewrite (Hfirst t0 (VArr group :: rest) [] t r
               (fst (reduceGroups stores 1
                       (Rejects t r) rest))); [done|done| |done].
    rewrite resolveStatePermissionMap_nonempty, reduceGroups_cons,
      groupPromise_first, Hany. reflexivity. }
  split; [|split; [|split; [|split]]].
  - subst ps. destruct privilegesNames as [|g gs]; [done|].
    rewrite resolveStatePermissionMap_nonempty. apply reduceGroups_length.
  - split.
    + intros Hall. eexists. by apply q_all_fulfilled.
    + intros [t Ht]. by eapply q_all_fulfilled_inv.
  - intros before t r after Hps Hbefore. by eapply Hfirst.
  - intros t0 r0 group rest Hexcept Hmap Hgroup Hall.
    destruct (q_any_all_rejected t0
                (fst <$> (resolvePrivilege stores t0 <$> group)))
      as (t & r & Hlatest & Hany).
    { by destruct group. }
    { rewrite <- list_fmap_compose. by apply Forall_fmap. }
    exists t, r. split; [done|]. by eapply Honly.
  - intros t0 r0 group name rest Hexcept Hmap Hall.
    eapply Honly; [done|done|].
    assert (fst <$> (resolvePrivilege stores t0 <$> (group ++ [name])%list)
            = Rejects t0 <$> (group ++ [name])%list) as Hchecks.
    { rewrite <- list_fmap_compose. apply Forall_fmap_ext_1.
      eapply Forall_impl; [done|]. intros n [Hrole Hperm]. simpl.
      unfold resolvePrivilege. by rewrite Hrole, Hperm. }
    destruct (q_any_all_rejected t0
                (Rejects t0 <$> (group ++ [name])%list))
      as (t & r & Hlatest & Hany).
    { by destruct group. }
    { apply Forall_fmap, Forall_forall. intros ? _. by eexists. }
    rewrite latest_same_tick in Hlatest. simplify_eq.
    by rewrite Hchecks.
Qed.

(** C1, at the sample stores: the first group fails and decides. *)
Lemma C1_all_groups_or_first_failure_witness :
  evaluateGroups sampleStores 0 [names ["nobody"]; names ["admin"]]
    = Rejects 0 (VStr "nobody")
  /\ authorizeByPermissionMap sampleStores 0
       (MkStatePermissionMap [names ["ghost"; "nobody"]; names ["admin"]] []
          (RedirRaw VUndefined))
     = Rejects 0 (VStr "nobody").
Proof.
  destruct (C1_all_groups_or_first_failure sampleStores 0
              [names ["nobody"]; names ["admin"]]
              (MkStatePermissionMap
                 [names ["ghost"; "nobody"]; names ["admin"]] []
                 (RedirRaw VUndefined)))
    as (_ & _ & Hfirst & _ & Hundefined); [discriminate|].
  split.
  - apply (Hfirst [] 0 (VStr "nobody") [Fulfils 1 (VStr "admin")]).
    + vm_compute. reflexivity.
    + constructor.
  - apply (Hundefined 0 VUndefined [VStr "ghost"] (VStr "nobody")
             [names ["admin"]]).
    + vm_compute. reflexivity.
    + reflexivity.
    + repeat constructor.
Defined.







(** C4 (as stated, refuted).  The callable at location 0 returns the
    string [admin]; the normalised property is that string itself, whereas
    normalising the returned value by the same rule gives the one-element
    array. *)
Lemma C4_callable_result_is_not_renormalized :
  fst (normalizeOnlyAndExceptProperty sampleContext (VFun 0) sampleWorld)
    = Normal (VStr "admin")
  /\ fst (normalizeOnlyAndExceptProperty sampleContext (VStr "admin")
            sampleWorld)
     = Normal (VArr [VStr "admin"]).
Proof. split; vm_compute; reflexivity. Qed.

(** C4 (amended).  [only] and [except] are normalised as follows: a string
    becomes the one-element array of that name; an array is kept as it is
    (one group, not split); a callable is called exactly once, with the
    transition properties as its only argument, and its return value is
    taken as it is; anything else, an absent property included, becomes the
    empty array.  The heap is left as it was. *)
Theorem C4_only_except_normalization
    (PermTransitionProperties : value) (w : world) (property : value) :
  (isString property = true ->
   normalizeOnlyAndExceptProperty PermTransitionProperties property w
   = (Normal (VArr [property]), w))
  /\ (isArray property = true ->
      normalizeOnlyAndExceptProperty PermTransitionProperties property w
      = (Normal property, w))
  /\ (forall l f,
        property = VFun l -> heap w !! l = Some f ->
        normalizeOnlyAndExceptProperty PermTransitionProperties property w
        = (Normal (fn_body f [PermTransitionProperties]),
           World (heap w)
                 (calls w ++ [(l, [PermTransitionProperties])])%list))
  /\ (isString property = false -> isArray property = false ->
      isFunction property = false ->
      normalizeOnlyAndExceptProperty PermTransitionProperties property w
      = (Normal (VArr []), w))
  /\ normalizeOnlyAndExceptProperty PermTransitionProperties VUndefined w
     = (Normal (VArr []), w).
Proof.
  unfold normalizeOnlyAndExceptProperty.
  split; [|split; [|split; [|split]]].
  - by intros ->.
  - by destruct property.
  - intros l f -> Hf. simpl. unfold call. by rewrite Hf.
  - by intros -> -> ->.
  - done.
Qed.

(** C4, on a string, an array, a callable and a number. *)
Lemma C4_only_except_normalization_witness :
  normalizeOnlyAndExceptProperty sampleContext (VStr "admin") sampleWorld
    = (Normal (VArr [VStr "admin"]), sampleWorld)
  /\ normalizeOnlyAndExceptProperty sampleContext
       (names ["admin"; "editor"]) sampleWorld
     = (Normal (names ["admin"; "editor"]), sampleWorld)
  /\ normalizeOnlyAndExceptProperty sampleContext (VFun 1) sampleWorld
     = (Normal sampleContext, World sampleHeap [(1, [sampleContext])])
  /\ normalizeOnlyAndExceptProperty sampleContext (VNum 7) sampleWorld
     = (Normal (VArr []), sampleWorld).
Proof.
  split; [|split; [|split]].
  - destruct (C4_only_except_normalization sampleContext sampleWorld
                (VStr "admin")) as (Hstring & _).
    by apply Hstring.
  - destruct (C4_only_except_normalization sampleContext sampleWorld
                (names ["admin"; "editor"])) as (_ & Harray & _).
    by apply Harray.
  - destruct (C4_only_except_normalization sampleContext sampleWorld
                (VFun 1)) as (_ & _ & Hcall & _).
    apply (Hcall 1 echoRejected); reflexivity.
  - destruct (C4_only_except_normalization sampleContext sampleWorld
                (VNum 7)) as (_ & _ & _ & Hother & _).
    by apply Hother.
Defined.

(** C5.  The evaluation of an empty sequence of groups is a failure with no
    matched name; an empty except phase therefore falls through to the only
    phase, and with an empty [only] the authorization is accepted. *)
Theorem C5_empty_map_is_accepted
    (stores : Stores) (now : nat) (only' : list value) (redirect : redirection) :
  resolveStatePermissionMap stores now [] = ([Rejects now VUndefined], [])
  /\ evaluateGroups stores now [] = Rejects now VUndefined
  /\ authorizeByPermissionMap stores now
       (MkStatePermissionMap only' [] redirect)
     = resolveOnlyStatePermissionMap stores now
         (MkStatePermissionMap only' [] redirect)
  /\ authorizeByPermissionMap stores now (MkStatePermissionMap [] [] redirect)
     = Fulfils now VUndefined.
Proof. repeat split. Qed.

(** C6.  For every privilege name of a group the role store is consulted
    first, and the permission store only when the role store does not
    define the name; a role definition takes precedence over a permission
    definition of the same name.  A name defined in neither store is warned
    about and yields a promise rejected at once with that name; nothing is
    thrown, and a group of such names fails with the last of them. *)
Theorem C6_role_store_before_permission_store
    (stores : Stores) (now : nat) (name : value) :
  (exists rest,
     snd (resolvePrivilege stores now name) = Has RoleStore name :: rest)
  /\ (Has PermissionStore name ∈ snd (resolvePrivilege stores now name) ->
      hasRoleDefinition stores name = false)
  /\ (hasRoleDefinition stores name = true ->
      resolvePrivilege stores now name
      = (shift now (validateRole stores name now),
         [Has RoleStore name; Validate RoleStore name]))
  /\ (hasRoleDefinition stores name = false ->
      hasPermissionDefinition stores name = true ->
      resolvePrivilege stores now name
      = (shift now (validatePermission stores name now),
         [Has RoleStore name; Has PermissionStore name;
          Validate PermissionStore name]))
  /\ (hasRoleDefinition stores name = false ->
      hasPermissionDefinition stores name = false ->
      resolvePrivilege stores now name
      = (Rejects now name,
         [Has RoleStore name; Has PermissionStore name; Warn name]))
  /\ (forall group,
        resolvePropertyValidity stores now (VArr group)
        = (Normal (fst <$> (resolvePrivilege stores now <$> group)),
           mjoin (snd <$> (resolvePrivilege stores now <$> group))))
  /\ (forall group,
        Forall (fun n => hasRoleDefinition stores n = false
                         /\ hasPermissionDefinition stores n = false)
               (group ++ [name])%list ->
        q_any now (fst <$> (resolvePrivilege stores now
                              <$> (group ++ [name])%list))
        = Rejects now name).
Proof.
  unfold resolvePrivilege.
  split; [|split; [|split; [|split; [|split; [|split]]]]].
  - destruct (hasRoleDefinition stores name);
      [|destruct (hasPermissionDefinition stores name)]; by eexists.
  - destruct (hasRoleDefinition stores name); [|done].
    simpl. intros [?|[?|?%elem_of_nil]%elem_of_cons]%elem_of_cons; done.
  - by intros ->.
  - by intros -> ->.
  - by intros -> ->.
  - done.
  - intros group Hall.
    assert (fst <$> ((fun privilegeName =>
                        if hasRoleDefinition stores privilegeName
                        then (shift now (validateRole stores privilegeName now),
                              [Has RoleStore privilegeName;
                               Validate RoleStore privilegeName])
                        else if hasPermissionDefinition stores privilegeName
                        then (shift now
                                (validatePermission stores privilegeName now),
                              [Has RoleStore privilegeName;
                               Has PermissionStore privilegeName;
                               Validate PermissionStore privilegeName])
                        else (q_reject now privilegeName,
                              [Has RoleStore privilegeName;
                               Has PermissionStore privilegeName;
                               Warn privilegeName]))
                     <$> (group ++ [name])%list)
            = Rejects now <$> (group ++ [name])%list) as ->.
    { rewrite <- list_fmap_compose. apply Forall_fmap_ext_1.
      eapply Forall_impl; [done|]. intros n [Hrole Hperm]. simpl.
      by rewrite Hrole, Hperm. }
    destruct (q_any_all_rejected now
                (Rejects now <$> (group ++ [name])%list))
      as (t & r & Hlatest & Hany).
    { by destruct group. }
    { apply Forall_fmap, Forall_forall. intros ? _. by eexists. }
    rewrite latest_same_tick in Hlatest. by simplify_eq.
Qed.

(** C6, at the sample stores: [editor] is defined in both stores, [read]
    as a permission only, [nobody] and [ghost] nowhere. *)
Lemma C6_role_store_before_permission_store_witness :
  resolvePrivilege sampleStores 5 (VStr "editor")
    = (Rejects 8 (VStr "editor"),
       [Has RoleStore (VStr "editor"); Validate RoleStore (VStr "editor")])
  /\ resolvePrivilege sampleStores 5 (VStr "read")
     = (Fulfils 6 (VStr "read"),
        [Has RoleStore (VStr "read"); Has PermissionStore (VStr "read");
         Validate PermissionStore (VStr "read")])
  /\ resolvePrivilege sampleStores 5 (VStr "nobody")
     = (Rejects 5 (VStr "nobody"),
        [Has RoleStore (VStr "nobody"); Has PermissionStore (VStr "nobody");
         Warn (VStr "nobody")])
  /\ q_any 5 (fst <$> (resolvePrivilege sampleStores 5
                         <$> [VStr "ghost"; VStr "nobody"]))
     = Rejects 5 (VStr "nobody").
Proof.
  split; [|split; [|split]].
  - destruct (C6_role_store_before_permission_store sampleStores 5
                (VStr "editor")) as (_ & _ & Hrole & _).
    apply Hrole. reflexivity.
  - destruct (C6_role_store_before_permission_store sampleStores 5
                (VStr "read")) as (_ & _ & _ & Hperm & _).
    apply Hperm; reflexivity.
  - destruct (C6_role_store_before_permission_store sampleStores 5
                (VStr "nobody")) as (_ & _ & _ & _ & Hnone & _).
    apply Hnone; reflexivity.
  - destruct (C6_role_store_before_permission_store sampleStores 5
                (VStr "nobody")) as (_ & _ & _ & _ & _ & _ & Hgroup).
    apply (Hgroup [VStr "ghost"]). repeat constructor.
Defined.

(** C7 (as stated, refuted).  An object that defines neither [state] nor
    [default] but carries an array [$inject] is taken for an injectable: the
    map is constructed, with the object itself as the [default] entry. *)
Lemma C7_annotated_object_is_accepted :
  new_PermissionMap sampleContext
    (VObj [("redirectTo",
            VObj [("$inject", VArr [VStr "rejectedPermission"]);
                  ("admin", VStr "dashboard")])]) sampleWorld
  = (Normal
       (MkPermissionMap (VArr []) (VArr [])
          (RedirMap
             {[ "default" :=
                  RUser (VObj [("$inject", VArr [VStr "rejectedPermission"]);
                               ("admin", VStr "dashboard")]) ]})),
     sampleWorld).
Proof. reflexivity. Qed.

(** C7 (amended).  A [redirectTo] object that is not injectable (neither
    an array nor the bearer of an array [$inject]) and defines neither
    [state] nor [default] makes the normalisation, and with it the
    construction of the map, throw at once; a string, an object with a
    [state], a function or injectable, and an object with a [default] are
    all normalised without an exception. *)
Theorem C7_redirectTo_shapes
    (PermTransitionProperties : value) (w : world) (redirectTo : value) :
  (isObject redirectTo = true ->
   isInjectable (heap w) redirectTo = false ->
   get_prop (heap w) redirectTo "state" = VUndefined ->
   get_prop (heap w) redirectTo "default" = VUndefined ->
   normalizeRedirectToProperty redirectTo w = (Throw ReferenceError, w)
   /\ forall fields,
        field fields "redirectTo" = redirectTo ->
        (forall l, field fields "only" = VFun l -> is_Some (heap w !! l)) ->
        (forall l, field fields "except" = VFun l -> is_Some (heap w !! l)) ->
        fst (new_PermissionMap PermTransitionProperties (VObj fields) w)
        = Throw ReferenceError)
  /\ (isString redirectTo = true ->
      normalizeRedirectToProperty redirectTo w
      = (Normal (RedirMap
                   {[ "default" := RConst (VObj [("state", redirectTo)]) ]}),
         w))
  /\ (isObject redirectTo = true ->
      isInjectable (heap w) redirectTo = false ->
      get_prop (heap w) redirectTo "state" <> VUndefined ->
      normalizeRedirectToProperty redirectTo w
      = (Normal (RedirMap {[ "default" := RConst redirectTo ]}), w))
  /\ (isString redirectTo = false ->
      isInjectable (heap w) redirectTo || isFunction redirectTo = true ->
      exists w',
        normalizeRedirectToProperty redirectTo w
        = (Normal (RedirMap {[ "default" := RUser redirectTo ]}), w'))
  /\ (isObject redirectTo = true ->
      isInjectable (heap w) redirectTo = false ->
      get_prop (heap w) redirectTo "state" = VUndefined ->
      get_prop (heap w) redirectTo "default" <> VUndefined ->
      exists d w',
        normalizeRedirectToProperty redirectTo w = (Normal (RedirMap d), w')).
Proof.
  assert (forall v, isObject v = true -> isString v = false
                    /\ isFunction v = false) as Hobj.
  { by intros []. }
  assert (forall v, v <> VUndefined -> isDefined v = true) as Hdef.
  { by intros []. }
  unfold normalizeRedirectToProperty, bind, read_heap.
  split; [|split; [|split; [|split]]].
  - intros Hobject Hinj Hstate Hdefault.
    split; [by apply normalizeRedirectToProperty_throws|].
    intros fields Hfield Honly Hexcept.
    unfold new_PermissionMap, bind, read_heap. simpl.
    destruct (normalizeOnlyAndExceptProperty_normal PermTransitionProperties
                _ w Honly) as (o & w1 & -> & Hw1).
    rewrite <- Hw1 in Hexcept.
    destruct (normalizeOnlyAndExceptProperty_normal PermTransitionProperties
                _ w1 Hexcept) as (e & w2 & -> & Hw2).
    rewrite Hfield, normalizeRedirectToProperty_throws; [done|done|..];
      by rewrite Hw2, Hw1.
  - by intros ->.
  - intros Hobject Hinj Hstate.
    destruct (Hobj _ Hobject) as [-> ->]. rewrite Hinj, Hobject. simpl.
    unfold isObjectSingleRedirectionRule. by rewrite (Hdef _ Hstate).
  - intros -> ->.
    unfold normalizeFunctionRedirectionRule, bind, read_heap, set_inject, ret.
    simpl. destruct (isInjectable (heap w) redirectTo); simpl; [by eexists|].
    destruct redirectTo; by eexists.
  - intros Hobject Hinj Hstate Hdefault.
    destruct (Hobj _ Hobject) as [-> ->]. rewrite Hinj, Hobject. simpl.
    unfold isObjectSingleRedirectionRule, isObjectMultipleRedirectionRule.
    rewrite Hstate, (Hdef _ Hdefault). simpl.
    unfold normalizeObjectMultipleRedirectionRule, bind, ret.
    rewrite normalizeEntries_eq. by eexists _, _.
Qed.

(** C7, on one input of each shape. *)
Lemma C7_redirectTo_shapes_witness :
  fst (new_PermissionMap sampleContext
         (VObj [("only", names ["admin"]);
                ("redirectTo", VObj [("admin", VStr "dashboard")])])
         sampleWorld)
    = Throw ReferenceError
  /\ normalizeRedirectToProperty (VStr "login") sampleWorld
     = (Normal (RedirMap
                  {[ "default" := RConst (VObj [("state", VStr "login")]) ]}),
        sampleWorld)
  /\ normalizeRedirectToProperty (VObj [("state", VStr "login")]) sampleWorld
     = (Normal (RedirMap
                  {[ "default" := RConst (VObj [("state", VStr "login")]) ]}),
        sampleWorld)
  /\ (exists w',
        normalizeRedirectToProperty (VFun 2) sampleWorld
        = (Normal (RedirMap {[ "default" := RUser (VFun 2) ]}), w'))
  /\ (exists d w',
        normalizeRedirectToProperty
          (VObj [("default", VStr "login"); ("admin", VStr "dashboard")])
          sampleWorld
        = (Normal (RedirMap d), w')).
Proof.
  split; [|split; [|split; [|split]]].
  - destruct (C7_redirectTo_shapes sampleContext sampleWorld
                (VObj [("admin", VStr "dashboard")])) as (Hbad & _).
    refine (proj2 (Hbad _ _ _ _) _ _ _ _);
      try reflexivity; intros l; discriminate.
  - destruct (C7_redirectTo_shapes sampleContext sampleWorld (VStr "login"))
      as (_ & Hstring & _).
    by apply Hstring.
  - destruct (C7_redirectTo_shapes sampleContext sampleWorld
                (VObj [("state", VStr "login")])) as (_ & _ & Hsingle & _).
    by apply Hsingle.
  - destruct (C7_redirectTo_shapes sampleContext sampleWorld (VFun 2))
      as (_ & _ & _ & Hfunction & _).
    by apply Hfunction.
  - destruct (C7_redirectTo_shapes sampleContext sampleWorld
                (VObj [("default", VStr "login");
                       ("admin", VStr "dashboard")]))
      as (_ & _ & _ & _ & Hmultiple).
    by apply Hmultiple.
Defined.

(** C8.  [extendPermissionMap] appends the names of the extending map, as
    one group, after the groups already there, for [only] and for [except]
    alike (an empty list of names adds no group), and merges the redirection
    dictionaries, an entry of the extending map overriding the entry of the
    same key; the path of a parent with [only: ["A"]] and a child with
    [only: ["B"]] gives the two groups [["A"]], [["B"]], in that order. *)
Theorem C8_extend_concatenates_groups
    (PermTransitionProperties : value) (w : world)
    (this : StatePermissionMap) (permissionMap : PermissionMap)
    (onlyNames exceptNames : list value) :
  PermissionMap.only permissionMap = VArr onlyNames ->
  PermissionMap.except permissionMap = VArr exceptNames ->
  (exists this',
     extendPermissionMap (heap w) this permissionMap = Normal this'
     /\ only this'
        = (only this
             ++ match onlyNames with [] => [] | _ => [VArr onlyNames] end)%list
     /\ except this'
        = (except this
             ++ match exceptNames with
                | [] => []
                | _ => [VArr exceptNames]
                end)%list
     /\ (forall d',
           PermissionMap.redirectTo permissionMap = RedirMap d' ->
           exists d,
             redirectTo this' = RedirMap d
             /\ forall key,
                  d !! key
                  = match d' !! key with
                    | Some r => Some r
                    | None => ownEntries (redirectTo this) !! key
                    end)
     /\ (PermissionMap.redirectTo permissionMap = RedirRaw VUndefined ->
         redirectTo this' = redirectTo this))
  /\ new_StatePermissionMap PermTransitionProperties
       [Some (VObj [("only", names ["A"])]);
        Some (VObj [("only", names ["B"])])] w
     = (Normal (MkStatePermissionMap [names ["A"]; names ["B"]] []
                  (RedirRaw VUndefined)),
        w).
Proof.
  intros Honly Hexcept. split.
  - unfold extendPermissionMap. rewrite Honly, Hexcept. simpl.
    eexists. split; [reflexivity|]. simpl.
    split; [destruct onlyNames; simpl; by rewrite ?app_nil_r|].
    split; [destruct exceptNames; simpl; by rewrite ?app_nil_r|].
    split.
    + intros d' ->. simpl. eexists. split; [reflexivity|].
      intros key. rewrite lookup_union. cbn [ownEntries].
      by destruct (d' !! key), (ownEntries (redirectTo this) !! key).
    + by intros ->.
  - destruct w as [h c]. reflexivity.
Qed.

(** C8, on a map with one group extended by a map with two names. *)
Lemma C8_extend_concatenates_groups_witness :
  extendPermissionMap sampleHeap
    (MkStatePermissionMap [names ["A"]] [names ["X"]]
       (RedirMap {[ "default" := RConst (VObj [("state", VStr "home")]) ]}))
    (MkPermissionMap (names ["B"; "C"]) (VArr [])
       (RedirMap {[ "default" := RConst (VObj [("state", VStr "login")]) ]}))
  = Normal
      (MkStatePermissionMap [names ["A"]; names ["B"; "C"]] [names ["X"]]
         (RedirMap {[ "default" := RConst (VObj [("state", VStr "login")]) ]})).
Proof.
  destruct (C8_extend_concatenates_groups sampleContext sampleWorld
              (MkStatePermissionMap [names ["A"]] [names ["X"]]
                 (RedirMap
                    {[ "default" := RConst (VObj [("state", VStr "home")]) ]}))
              (MkPermissionMap (names ["B"; "C"]) (VArr [])
                 (RedirMap
                    {[ "default" := RConst (VObj [("state", VStr "login")]) ]}))
              [VStr "B"; VStr "C"] [] eq_refl eq_refl)
    as ((this' & Hextend & Honly & Hexcept & Hredirect & _) & _).
  simpl in Hextend. rewrite Hextend. f_equal.
  destruct (Hredirect _ eq_refl) as (d & Hd & Hkeys).
  destruct this' as [o e r]. simpl in *. subst o e r. f_equal. f_equal.
  apply map_eq. intros key. rewrite Hkeys.
  destruct (decide (key = "default")) as [->|Hne].
  - by rewrite !lookup_singleton_eq.
  - by rewrite !lookup_singleton_ne.
Defined.

(** C9.  In the record of a sequence evaluation, every check of the names
    of group [n + 1] comes after the entry that records the settlement of
    the promise of group [n], and happens no earlier on the clock, whatever
    the stores answer and however long the validations take. *)
Theorem C9_next_group_starts_after_settlement
    (stores : Stores) (now : nat) (privilegesNames : list value)
    (j n t : nat) (e : event) :
  snd (resolveStatePermissionMap stores now privilegesNames) !! j
    = Some (Check (S n) t e) ->
  exists i t' ok,
    i < j
    /\ snd (resolveStatePermissionMap stores now privilegesNames) !! i
       = Some (Settled n t' ok)
    /\ t' <= t.
Proof.
  destruct privilegesNames as [|g gs]; [done|].
  rewrite resolveStatePermissionMap_nonempty. intros Hj.
  destruct (reduceGroups_trace stores _ _ _ _ _ _ _ Hj) as (_ & _ & Hbefore).
  apply (Hbefore n eq_refl). lia.
Qed.

(** C9, at the sample stores: the check of [read] in the permission
    store, entry 6 of the record, follows the settlement of group 0. *)
Lemma C9_next_group_starts_after_settlement_witness :
  exists i t' ok,
    i < 6
    /\ snd (resolveStatePermissionMap sampleStores 0
              [names ["editor"; "banned"]; names ["read"]]) !! i
       = Some (Settled 0 t' ok)
    /\ t' <= 2.
Proof.
  apply (C9_next_group_starts_after_settlement sampleStores 0
           [names ["editor"; "banned"]; names ["read"]] 6 0 2
           (Has PermissionStore (VStr "read"))).
  vm_compute. reflexivity.
Defined.



(** * Further properties *)

(** ** Construction and redirect resolution *)

Section RedirectFacts.

Implicit Types (h : gmap loc fobj) (w : world) (v : value).






Lemma alter_absent h l (g : fobj -> fobj) : h !! l = None -> alter g l h = h.
Proof.
  intros Hl. apply map_eq. intros l'.
  destruct (decide (l = l')) as [<-|Hne].
  - by rewrite lookup_alter_eq, Hl.
  - by rewrite lookup_alter_ne.
Qed.

(** Annotating once more changes nothing: what was annotated is injectable. *)
Lemma annotateAll_fixpoint (vs : list value) h :
  forall v, v ∈ vs ->
    annotateHeap (foldl annotateHeap h vs) v = foldl annotateHeap h vs.
Proof.
  intros v Hv. destruct v as [| | | | | | |l|]; try done. simpl.
  rewrite isInjectable_fun.
  destruct (foldl annotateHeap h vs !! l) as [f1|] eqn:Hl;
    [|by apply alter_absent].
  destruct (isArray (fn_inject f1)) eqn:Harr; [done|]. exfalso.
  destruct (annotateAll_step vs h l)
    as [Hsame|(_ & f & Hf & Harr' & Hres)].
  - rewrite Hl in Hsame.
    pose proof (annotateAll_hit vs h l f1 Hv (eq_sym Hsame) Harr) as Hhit.
    rewrite Hl in Hhit. injection Hhit as Heq. by rewrite Heq in Harr.
  - rewrite Hl in Hres. injection Hres as ->. done.
Qed.

Lemma annotateAll_twice (vs : list value) h :
  foldl annotateHeap (foldl annotateHeap h vs) vs = foldl annotateHeap h vs.
Proof.
  assert (forall us, (forall v, v ∈ us -> v ∈ vs) ->
            foldl annotateHeap (foldl annotateHeap h vs) us
            = foldl annotateHeap h vs) as Hgen.
  { induction us as [|u us IH]; intros Hsub; simpl; [done|].
    rewrite annotateAll_fixpoint; [|apply Hsub; left].
    apply IH. intros v Hv. apply Hsub. by right. }
  by apply Hgen.
Qed.

End RedirectFacts.










(** X5.  Whatever the map and the resolvers, a redirect that
    [resolveRedirectState] fulfils is an object, and it is fulfilled no
    earlier than the call: a bare string is never handed out, it is wrapped
    first. *)
Theorem X5_fulfilled_redirect_is_an_object
    (PermTransitionProperties : value) (getService : string -> option value)
    (h : gmap loc fobj) (now : nat) (this : PermissionMap) (name : string)
    (t : nat) (redirect : value) :
  resolveRedirectState PermTransitionProperties getService h now this name
  = Normal (Fulfils t redirect) ->
  isObject redirect = true /\ now <= t.
Proof.
  assert (forall r,
            resolveRedirectState_fn PermTransitionProperties getService h now
              r name
            = Normal (Fulfils t redirect) ->
            isObject redirect = true /\ now <= t) as Hfn.
  { intros r. unfold resolveRedirectState_fn.
    destruct (invokeResolver _ _ _ _) as [x|err]; [|done].
    intros [= Hresult].
    assert (exists t0 v0, q_when now x = Fulfils t0 v0 /\ now <= t0
                          /\ redirectStateOf (Fulfils t0 v0)
                             = Fulfils t redirect)
      as (t0 & v0 & _ & Hle & Hstate).
    { destruct (q_when now x) as [|t0 v0|t0 r0] eqn:Hwhen; try done.
      exists t0, v0. split; [done|]. split; [|done].
      destruct x; simpl in Hwhen; try (injection Hwhen as <- _; lia).
      assert (settled_at (shift now p) = Some t0) as Hshift
        by by rewrite Hwhen.
      by apply shift_after in Hshift. }
    simpl in Hstate. destruct (isString v0); [|destruct (isObject v0) eqn:?];
      simplify_eq; by split. }
  unfold resolveRedirectState.
  destruct (PermissionMap.redirectTo this) as [d|raw].
  - destruct (lookupRedirect d name); [apply Hfn|done].
  - destruct raw; try done;
      match goal with
      | |- context [isDefined ?v] => destruct (isDefined v)
      end; try done; apply Hfn.
Qed.

(** X5, for the resolver that echoes the rejected privilege. *)
Lemma X5_fulfilled_redirect_is_an_object_witness :
  resolveRedirectState sampleContext noServices
    (<[1 := annotated injectNames echoRejected]> sampleHeap) 4
    (MkPermissionMap (VArr []) (VArr [])
       (RedirMap {[ "default" := RUser (VFun 1) ]}))
    "editor"
  = Normal (Fulfils 4 (VObj [("state", VStr "editor")]))
  /\ isObject (VObj [("state", VStr "editor")]) = true /\ 4 <= 4.
Proof.
  assert (resolveRedirectState sampleContext noServices
            (<[1 := annotated injectNames echoRejected]> sampleHeap) 4
            (MkPermissionMap (VArr []) (VArr [])
               (RedirMap {[ "default" := RUser (VFun 1) ]}))
            "editor"
          = Normal (Fulfils 4 (VObj [("state", VStr "editor")]))) as Hcall.
  { vm_compute. reflexivity. }
  split; [exact Hcall|].
  exact (X5_fulfilled_redirect_is_an_object _ _ _ _ _ _ _ _ Hcall).
Defined.

(** X6.  Normalising the same [redirectTo] again, as every new map of the
    same state does, changes nothing more: the second normalisation leaves
    the world as the first one made it and gives the same result. *)
Theorem X6_renormalisation_changes_nothing
    (redirectTo : value) (w w1 : world) (r : completion redirection) :
  normalizeRedirectToProperty redirectTo w = (r, w1) ->
  normalizeRedirectToProperty redirectTo w1 = (r, w1).
Proof.
  assert (forall (a : completion redirection),
            (forall w', normalizeRedirectToProperty redirectTo w' = (a, w')) ->
            normalizeRedirectToProperty redirectTo w = (r, w1) ->
            normalizeRedirectToProperty redirectTo w1 = (r, w1)) as Hpure.
  { intros a Ha. rewrite Ha. intros [= <- <-]. apply Ha. }
  destruct redirectTo as [| |b|n|s|xs|fields|l|p];
    try (eapply Hpure; intros w';
         unfold normalizeRedirectToProperty, bind, read_heap, isInjectable;
         simpl; rewrite ?andb_false_r; reflexivity).
  - (* an object literal *)
    unfold normalizeRedirectToProperty, bind, read_heap. simpl.
    unfold isInjectable, isObjectSingleRedirectionRule,
      isObjectMultipleRedirectionRule. simpl.
    destruct (isArray (field fields "$inject")); simpl.
    { rewrite !normalizeFunctionRedirectionRule_eq. simpl.
      intros [= <- <-]. reflexivity. }
    destruct (isDefined (field fields "state")).
    { unfold ret. by intros [= <- <-]. }
    destruct (isDefined (field fields "default")).
    + unfold normalizeObjectMultipleRedirectionRule, bind, ret.
      rewrite !normalizeEntries_eq. intros [= <- <-]. simpl.
      by rewrite annotateAll_twice.
    + unfold throw. by intros [= <- <-].
  - (* a function *)
    unfold normalizeRedirectToProperty, bind, read_heap. simpl.
    rewrite !orb_true_r, !normalizeFunctionRedirectionRule_eq.
    intros [= <- <-].
    pose proof (annotateAll_twice [VFun l] (heap w)) as Htwice.
    cbn [foldl] in Htwice. clear Hpure.
    unfold annotateHeap in Htwice |- *. cbn [heap calls].
    by rewrite Htwice.
Qed.

(** X6, for the sample function at location 1. *)
Lemma X6_renormalisation_changes_nothing_witness :
  normalizeRedirectToProperty (VFun 1)
    (World (alter (annotated injectNames) 1 sampleHeap) [])
  = (Normal (RedirMap {[ "default" := RUser (VFun 1) ]}),
     World (alter (annotated injectNames) 1 sampleHeap) []).
Proof.
  apply (X6_renormalisation_changes_nothing (VFun 1) sampleWorld).
  reflexivity.
Defined.

(** ** The map of a state path *)

Section PathFacts.

Variable PermTransitionProperties : value.

Implicit Types (this m : StatePermissionMap) (path : list state).

(** What one extension does to the groups: nothing, or one more group,
    which is not the empty array. *)
Lemma extendPermissionMap_groups h this permissionMap m :
  extendPermissionMap h this permissionMap = Normal m ->
  (exists groups,
     only m = (only this ++ groups)%list
     /\ Forall (fun g => g <> VArr []) groups /\ length groups <= 1)
  /\ (exists groups,
        except m = (except this ++ groups)%list
        /\ Forall (fun g => g <> VArr []) groups /\ length groups <= 1).
Proof.
  assert (forall v b, hasLength h v = Normal b ->
            exists groups : list value,
              (if b then (only this ++ [v])%list else only this)
              = (only this ++ groups)%list
              /\ Forall (fun g => g <> VArr []) groups
              /\ length groups <= 1) as Honly.
  { intros v [] Hv.
    - exists [v]. split; [done|]. split; [|done].
      constructor; [|done]. intros ->. discriminate Hv.
    - exists []. rewrite app_nil_r. split; [done|].
      split; [constructor | simpl; lia]. }
  assert (forall v b, hasLength h v = Normal b ->
            exists groups : list value,
              (if b then (except this ++ [v])%list else except this)
              = (except this ++ groups)%list
              /\ Forall (fun g => g <> VArr []) groups
              /\ length groups <= 1) as Hexcept.
  { intros v [] Hv.
    - exists [v]. split; [done|]. split; [|done].
      constructor; [|done]. intros ->. discriminate Hv.
    - exists []. rewrite app_nil_r. split; [done|].
      split; [constructor | simpl; lia]. }
  unfold extendPermissionMap.
  destruct (hasLength h (PermissionMap.only permissionMap)) as [bo|]
    eqn:Ho; [|done].
  destruct (hasLength h (PermissionMap.except permissionMap)) as [be|]
    eqn:He; [|done].
  intros [= <-]. simpl. split; [by eapply Honly | by eapply Hexcept].
Qed.

Lemma extendWithPath_cons this (st : state) path w :
  extendWithPath PermTransitionProperties this (st :: path) w
  = match extendWithState PermTransitionProperties this st w with
    | (Normal m, w1) => extendWithPath PermTransitionProperties m path w1
    | (Throw e, w1) => (Throw e, w1)
    end.
Proof. reflexivity. Qed.

Lemma extendWithState_groups this (st : state) w m w1 :
  extendWithState PermTransitionProperties this st w = (Normal m, w1) ->
  (exists groups,
     only m = (only this ++ groups)%list
     /\ Forall (fun g => g <> VArr []) groups
     /\ length groups <= length (filter is_Some [st]))
  /\ (exists groups,
        except m = (except this ++ groups)%list
        /\ Forall (fun g => g <> VArr []) groups
        /\ length groups <= length (filter is_Some [st])).
Proof.
  destruct st as [permissions|]; cbn [extendWithState].
  - match goal with
    | |- context [length (filter ?P ?l)] =>
        assert (length (filter P l) = 1) as ->
          by by rewrite filter_cons_True by by eexists
    end.
    unfold bind, read_heap.
    destruct (new_PermissionMap PermTransitionProperties permissions w)
      as [[pm|err] w2]; [|done]. simpl.
    destruct (extendPermissionMap (heap w2) this pm) as [m'|err] eqn:Hext;
      [|done].
    unfold ret. intros [= <- <-].
    destruct (extendPermissionMap_groups _ _ _ _ Hext)
      as ((go & ? & ? & ?) & (ge & ? & ? & ?)).
    split; [by exists go | by exists ge].
  - unfold ret. intros [= <- <-].
    split; exists []; rewrite app_nil_r; (split; [done|]);
      (split; [constructor | simpl; lia]).
Qed.

End PathFacts.


(** X8.  Extending a map along a path only appends groups: the groups it
    had stay, in order, in front; no appended group is the empty array; and
    at most one group per state that declares permissions is appended, to
    [only] and to [except] alike. *)
Theorem X8_groups_are_appended_and_never_empty
    (PermTransitionProperties : value) (path : list state)
    (this m : StatePermissionMap) (w w' : world) :
  extendWithPath PermTransitionProperties this path w = (Normal m, w') ->
  (exists groups,
     only m = (only this ++ groups)%list
     /\ Forall (fun g => g <> VArr []) groups
     /\ length groups <= length (filter is_Some path))
  /\ (exists groups,
        except m = (except this ++ groups)%list
        /\ Forall (fun g => g <> VArr []) groups
        /\ length groups <= length (filter is_Some path)).
Proof.
  revert this w. induction path as [|st path IH]; intros this w.
  - unfold extendWithPath, ret. intros [= <- <-].
    split; exists []; rewrite app_nil_r; (split; [done|]);
      (split; [constructor | simpl; lia]).
  - rewrite extendWithPath_cons.
    destruct (extendWithState PermTransitionProperties this st w)
      as [[m1|err] w1] eqn:Hstate; [|done].
    intros Hrest.
    destruct (extendWithState_groups _ _ _ _ _ _ Hstate)
      as ((go1 & Ho1 & Hgo1 & Hlo1) & (ge1 & He1 & Hge1 & Hle1)).
    destruct (IH _ _ Hrest)
      as ((go2 & Ho2 & Hgo2 & Hlo2) & (ge2 & He2 & Hge2 & Hle2)).
    assert (length (filter is_Some (st :: path))
            = length (filter is_Some [st]) + length (filter is_Some path))
      as Hcount.
    { change (st :: path) with ([st] ++ path)%list.
      by rewrite filter_app, length_app. }
    split.
    + exists (go1 ++ go2)%list. rewrite Ho2, Ho1, app_assoc.
      split; [done|]. split; [by apply Forall_app|].
      rewrite length_app. lia.
    + exists (ge1 ++ ge2)%list. rewrite He2, He1, app_assoc.
      split; [done|]. split; [by apply Forall_app|].
      rewrite length_app. lia.
Qed.

(** X8, for a parent that allows [A], a state without permissions and a
    child whose [only] is empty. *)
Lemma X8_groups_are_appended_and_never_empty_witness :
  (exists groups,
     [names ["A"]] = ([] ++ groups)%list
     /\ Forall (fun g => g <> VArr []) groups
     /\ length groups
        <= length (filter is_Some
                     [Some (VObj [("only", names ["A"])]); None;
                      Some (VObj [("only", VArr [])])]))
  /\ (exists groups,
        [] = ([] ++ groups)%list
        /\ Forall (fun g => g <> VArr []) groups
        /\ length groups
           <= length (filter is_Some
                        [Some (VObj [("only", names ["A"])]); None;
                         Some (VObj [("only", VArr [])])])).
Proof.
  apply (X8_groups_are_appended_and_never_empty sampleContext
           [Some (VObj [("only", names ["A"])]); None;
            Some (VObj [("only", VArr [])])]
           prototype
           (MkStatePermissionMap [names ["A"]] [] (RedirRaw VUndefined))
           sampleWorld sampleWorld).
  reflexivity.
Defined.

(** States that do not own a [permissions] property drop out of the
    construction, whatever map is being extended. *)
Lemma extendWithPath_filter
    (PermTransitionProperties : value) (path : list value) :
  forall (w : world) (this : StatePermissionMap),
    extendWithPath PermTransitionProperties this (toState <$> path) w
    = extendWithPath PermTransitionProperties this
        (toState <$> filter (fun st => areSetStatePermissions st = true) path)
        w.
Proof.
  induction path as [|st path IH]; intros w this; [done|].
  destruct (areSetStatePermissions st) eqn:Hset.
  - rewrite filter_cons_True by done. rewrite !fmap_cons.
    rewrite !extendWithPath_cons.
    destruct (extendWithState PermTransitionProperties this (toState st) w)
      as [[m|err] w1]; [apply IH|done].
  - rewrite filter_cons_False by (rewrite Hset; done).
    rewrite fmap_cons, extendWithPath_cons.
    unfold toState at 1. rewrite Hset. simpl. apply IH.
Qed.


(** X10.  A path on which no state declares permissions of its own is
    authorized at once: the map of the path is the empty map, the world is
    untouched, and the authorization is fulfilled at the tick of the call. *)
Theorem X10_unprotected_path_is_authorized
    (stores : Stores) (PermTransitionProperties : value) (now : nat)
    (path : list value) (w : world) :
  Forall (fun st => areSetStatePermissions st = false) path ->
  new_StatePermissionMap_of PermTransitionProperties path w
  = (Normal prototype, w)
  /\ authorizeByState stores PermTransitionProperties now path w
     = (Normal (Fulfils now VUndefined), w).
Proof.
  intros Hnone.
  assert (filter (fun st => areSetStatePermissions st = true) path = [])
    as Hfilter.
  { induction Hnone as [|st path Hst _ IH]; [done|].
    rewrite filter_cons_False by (rewrite Hst; done). exact IH. }
  assert (new_StatePermissionMap_of PermTransitionProperties path w
          = (Normal prototype, w)) as Hmap.
  { unfold new_StatePermissionMap_of, new_StatePermissionMap.
    rewrite extendWithPath_filter, Hfilter. reflexivity. }
  split; [exact Hmap|].
  unfold authorizeByState, bind. rewrite Hmap. reflexivity.
Qed.

(** X10, for a path of two states, one without [data] and one whose [data]
    has a title only. *)
Lemma X10_unprotected_path_is_authorized_witness :
  new_StatePermissionMap_of sampleContext
    [VObj [("name", VStr "home")];
     VObj [("name", VStr "home.about");
           ("data", VObj [("title", VStr "About")])]] sampleWorld
  = (Normal prototype, sampleWorld)
  /\ authorizeByState sampleStores sampleContext 7
       [VObj [("name", VStr "home")];
        VObj [("name", VStr "home.about");
              ("data", VObj [("title", VStr "About")])]] sampleWorld
     = (Normal (Fulfils 7 VUndefined), sampleWorld).
Proof.
  apply (X10_unprotected_path_is_authorized sampleStores sampleContext 7).
  repeat constructor.
Defined.

(** ** What an accepted and what a rejected authorization tell *)

Section DecisionFacts.

Variable stores : Stores.

Implicit Types (ps : list promise) (p prev : promise) (g : value).

Lemma q_any_fulfilled_inv now ps t v :
  q_any now ps = Fulfils t v -> Fulfils t v ∈ ps.
Proof.
  unfold q_any.
  destruct (earliest fulfilment ps) as [[t1 v1]|] eqn:Hful.
  - intros [= <- <-].
    destruct (earliest_elem _ _ _ _ Hful) as (p & Hp & Hsel).
    by destruct p; simplify_eq/=.
  - destruct (existsb is_pending ps); [done|].
    by destruct (latest rejection ps) as [[? ?]|].
Qed.

Lemma q_any_rejected_inv now ps t r :
  q_any now ps = Rejects t r -> Forall (fun p => is_Some (rejection p)) ps.
Proof.
  unfold q_any.
  destruct (earliest fulfilment ps) as [[t1 v1]|] eqn:Hful; [done|].
  destruct (existsb is_pending ps) eqn:Hpend; [done|]. intros _.
  apply earliest_None in Hful. rewrite Forall_forall in Hful.
  apply Forall_forall. intros p Hp. specialize (Hful _ Hp).
  destruct p as [|t' v'|t' r']; simpl in *; [|done|by eexists].
  exfalso. assert (existsb is_pending ps = true); [|congruence].
  apply existsb_exists. exists Pending. split; [by apply list_elem_of_In|done].
Qed.

(** A fulfilled group is an array one of whose names was validated. *)
Lemma groupPromise_fulfilled_inv group prev g t v :
  fst (groupPromise stores group prev g) = Fulfils t v ->
  exists now names name v0,
    settled_at prev = Some now /\ g = VArr names /\ name ∈ names
    /\ fst (resolvePrivilege stores now name) = Fulfils t v0
    /\ v = firstOfArray v0.
Proof.
  unfold groupPromise. destruct (settled_at prev) as [now|]; [|done].
  destruct g as [| | | | |names| | |]; try done. simpl.
  destruct (q_any now (fst <$> (resolvePrivilege stores now <$> names)))
    as [|t0 v0|t0 r0] eqn:Hany; try done.
  simpl. intros [= <- <-].
  apply q_any_fulfilled_inv in Hany. rewrite <- list_fmap_compose in Hany.
  apply list_elem_of_fmap in Hany as (name & Hname & Hin).
  by exists now, names, name, v0.
Qed.

(** A rejected group is an array none of whose names was validated. *)
Lemma groupPromise_rejected_inv group prev g t r :
  fst (groupPromise stores group prev g) = Rejects t r ->
  exists now names,
    settled_at prev = Some now /\ g = VArr names
    /\ Forall (fun name =>
                 is_Some (rejection (fst (resolvePrivilege stores now name))))
              names.
Proof.
  unfold groupPromise. destruct (settled_at prev) as [now|]; [|done].
  destruct g as [| | | | |names| | |]; try done. simpl.
  destruct (q_any now (fst <$> (resolvePrivilege stores now <$> names)))
    as [|t0 v0|t0 r0] eqn:Hany; try done.
  simpl. intros [= <- <-].
  apply q_any_rejected_inv in Hany. rewrite <- list_fmap_compose in Hany.
  rewrite Forall_fmap in Hany. exists now, names.
  split; [done|]. split; [done|]. eapply Forall_impl; [exact Hany|].
  by intros name.
Qed.

Lemma reduceGroups_fulfilled_inv privilegesNames :
  forall group prev,
    Forall (fun p => is_Some (fulfilment p))
           (fst (reduceGroups stores group prev privilegesNames)) ->
    Forall (fun g => exists names name t1,
              g = VArr names /\ name ∈ names
              /\ is_Some (fulfilment (fst (resolvePrivilege stores t1 name))))
           privilegesNames.
Proof.
  induction privilegesNames as [|g gs IH]; intros group prev; [done|].
  rewrite reduceGroups_cons. simpl.
  intros [[[t v] Hp] Hrest]%Forall_cons. constructor; [|by eapply IH].
  destruct (fst (groupPromise stores group prev g)) as [|t' v'|] eqn:Hg;
    simplify_eq/=.
  destruct (groupPromise_fulfilled_inv _ _ _ _ _ Hg)
    as (now & names & name & v0 & _ & -> & Hin & Hname & _).
  exists names, name, now. rewrite Hname. split; [done|]. split; [done|].
  by eexists.
Qed.

Lemma reduceGroups_rejected_inv privilegesNames :
  forall group prev t r,
    Rejects t r ∈ fst (reduceGroups stores group prev privilegesNames) ->
    exists g names t1,
      g ∈ privilegesNames /\ g = VArr names
      /\ Forall (fun name =>
                   is_Some (rejection (fst (resolvePrivilege stores t1 name))))
                names.
Proof.
  induction privilegesNames as [|g gs IH]; intros group prev t r.
  - simpl. by intros ?%elem_of_nil.
  - rewrite reduceGroups_cons. simpl. intros [Hhead|Hin]%elem_of_cons.
    + symmetry in Hhead.
      destruct (groupPromise_rejected_inv _ _ _ _ _ Hhead)
        as (now & names & _ & -> & Hall).
      exists (VArr names), names, now. split; [left|done].
    + destruct (IH _ _ _ _ Hin) as (g' & names & t1 & Hg' & -> & Hall).
      exists (VArr names), names, t1. split; [by right|done].
Qed.

Lemma last_tick_ge now ps : now <= last_tick now ps.
Proof. induction ps as [|p ps IH]; simpl; lia. Qed.

(** A sequence of groups settles no earlier than it was started. *)
Lemma evaluateGroups_after now privilegesNames t :
  settled_at (evaluateGroups stores now privilegesNames) = Some t -> now <= t.
Proof.
  unfold evaluateGroups, q_all.
  destruct (earliest rejection _) as [[t1 r1]|] eqn:Hrej.
  - simpl. intros [= <-].
    destruct (earliest_elem _ _ _ _ Hrej) as (p & Hp & Hsel).
    destruct privilegesNames as [|g gs].
    + simpl in Hp. apply list_elem_of_singleton in Hp as ->.
      simpl in Hsel. by simplify_eq.
    + rewrite resolveStatePermissionMap_nonempty in Hp.
      destruct (reduceGroups_after stores _ _ _ p t1 Hp)
        as (t0 & Ht0 & Hle).
      { by destruct p; simplify_eq/=. }
      by simplify_eq/=.
  - destruct (existsb is_pending _); [done|]. simpl. intros [= <-].
    apply last_tick_ge.
Qed.

(** When the evaluation of a sequence fails, one of its groups is an array
    none of whose names was validated, or there was no group at all. *)
Lemma evaluateGroups_rejected_inv now privilegesNames t r :
  evaluateGroups stores now privilegesNames = Rejects t r ->
  privilegesNames = []
  \/ exists g names t1,
       g ∈ privilegesNames /\ g = VArr names
       /\ Forall (fun name =>
                    is_Some (rejection (fst (resolvePrivilege stores t1 name))))
                 names.
Proof.
  intros Heval. destruct privilegesNames as [|g gs]; [by left|]. right.
  unfold evaluateGroups, q_all in Heval.
  destruct (earliest rejection _) as [[t1 r1]|] eqn:Hrej.
  - destruct (earliest_elem _ _ _ _ Hrej) as (p & Hp & Hsel).
    rewrite resolveStatePermissionMap_nonempty in Hp.
    destruct p as [|t' v'|t' r']; simplify_eq/=.
    by eapply reduceGroups_rejected_inv.
  - by destruct (existsb is_pending _).
Qed.

Lemma evaluateGroups_fulfilled_inv now privilegesNames t v :
  evaluateGroups stores now privilegesNames = Fulfils t v ->
  privilegesNames <> []
  /\ Forall (fun g => exists names name t1,
               g = VArr names /\ name ∈ names
               /\ is_Some (fulfilment
                             (fst (resolvePrivilege stores t1 name))))
            privilegesNames.
Proof.
  intros Heval. destruct privilegesNames as [|g gs]; [done|].
  split; [done|]. apply q_all_fulfilled_inv in Heval.
  rewrite resolveStatePermissionMap_nonempty in Heval.
  by eapply reduceGroups_fulfilled_inv.
Qed.

End DecisionFacts.

(** X11.  An authorization is accepted only for a reason: the except phase
    failed (there is no except group, or some except group is an array none
    of whose names was validated), and every group of [only] is an array
    with a name that was validated.  It is accepted no earlier than it was
    asked for, and with no value when [only] is empty. *)
Theorem X11_accepted_only_when_every_only_group_validates
    (stores : Stores) (now : nat) (map : StatePermissionMap)
    (t : nat) (v : value) :
  authorizeByPermissionMap stores now map = Fulfils t v ->
  now <= t
  /\ (except map = []
      \/ exists g names t1,
           g ∈ except map /\ g = VArr names
           /\ Forall (fun name =>
                        is_Some (rejection
                                   (fst (resolvePrivilege stores t1 name))))
                     names)
  /\ Forall (fun g => exists names name t1,
               g = VArr names /\ name ∈ names
               /\ is_Some (fulfilment
                             (fst (resolvePrivilege stores t1 name))))
            (only map)
  /\ (only map = [] -> v = VUndefined).
Proof.
  unfold authorizeByPermissionMap, authorizeStatePermissionMap,
    resolveExceptStatePermissionMap.
  destruct (evaluateGroups stores now (except map)) as [|t0 v0|t0 r0]
    eqn:Hexcept; try done.
  assert (now <= t0) as Hle0.
  { apply (evaluateGroups_after stores now (except map)).
    by rewrite Hexcept. }
  pose proof (evaluateGroups_rejected_inv _ _ _ _ _ Hexcept) as Hdeny.
  unfold resolveOnlyStatePermissionMap.
  destruct (only map) as [|g gs] eqn:Honly.
  - intros [= <- <-]. by repeat split.
  - destruct (evaluateGroups stores t0 (g :: gs)) as [|t1 v1|t1 r1]
      eqn:Hallow; try done.
    intros [= <- <-].
    assert (t0 <= t1) as Hle1.
    { apply (evaluateGroups_after stores t0 (g :: gs)). by rewrite Hallow. }
    split; [lia|]. split; [done|]. split; [|done].
    by apply (evaluateGroups_fulfilled_inv _ _ _ _ _ Hallow).
Qed.

(** X11, at the sample stores: [only] is [[admin]], [except] is
    [[nobody]]. *)
Lemma X11_accepted_only_when_every_only_group_validates_witness :
  0 <= 1
  /\ ([names ["nobody"]] = []
      \/ exists g group t1,
           g ∈ [names ["nobody"]] /\ g = VArr group
           /\ Forall (fun name =>
                        is_Some (rejection
                                   (fst (resolvePrivilege sampleStores t1
                                           name))))
                     group)
  /\ Forall (fun g => exists group name t1,
               g = VArr group /\ name ∈ group
               /\ is_Some (fulfilment
                             (fst (resolvePrivilege sampleStores t1 name))))
            [names ["admin"]]
  /\ ([names ["admin"]] = [] -> VArr [VStr "admin"] = VUndefined).
Proof.
  apply (X11_accepted_only_when_every_only_group_validates sampleStores 0
           (MkStatePermissionMap [names ["admin"]] [names ["nobody"]]
              (RedirRaw VUndefined))
           1 (VArr [VStr "admin"])).
  vm_compute. reflexivity.
Defined.

(** X12.  An authorization is rejected only for a reason, and no earlier
    than it was asked for: either every except group is an array with a name
    that was validated, and the reason is the result of a validated name of
    the first except group; or the except phase failed and some group of
    [only] is an array none of whose names was validated. *)
Theorem X12_rejected_only_when_denied_or_not_allowed
    (stores : Stores) (now : nat) (map : StatePermissionMap)
    (t : nat) (r : value) :
  authorizeByPermissionMap stores now map = Rejects t r ->
  now <= t
  /\ ((Forall (fun g => exists names name t1,
                 g = VArr names /\ name ∈ names
                 /\ is_Some (fulfilment
                               (fst (resolvePrivilege stores t1 name))))
              (except map)
       /\ exists names rest name t0 v0,
            except map = VArr names :: rest /\ name ∈ names
            /\ fst (resolvePrivilege stores now name) = Fulfils t0 v0
            /\ r = firstOfArray v0)
      \/ exists g names t1,
           g ∈ only map /\ g = VArr names
           /\ Forall (fun name =>
                        is_Some (rejection
                                   (fst (resolvePrivilege stores t1 name))))
                     names).
Proof.
  unfold authorizeByPermissionMap, authorizeStatePermissionMap,
    resolveExceptStatePermissionMap.
  destruct (evaluateGroups stores now (except map)) as [|t0 v0|t0 r0]
    eqn:Hexcept; try done.
  - (* denied *)
    intros [= <- <-].
    assert (now <= t0) as Hle0.
    { apply (evaluateGroups_after stores now (except map)).
      by rewrite Hexcept. }
    split; [done|]. left.
    destruct (evaluateGroups_fulfilled_inv _ _ _ _ _ Hexcept) as [Hne Hall].
    split; [done|].
    destruct (except map) as [|g gs] eqn:Hmap; [done|].
    unfold evaluateGroups in Hexcept.
    pose proof (q_all_fulfilled_inv _ _ _ _ Hexcept) as Hps.
    rewrite (q_all_fulfilled _ _ Hps) in Hexcept.
    rewrite resolveStatePermissionMap_nonempty, reduceGroups_cons
      in Hexcept, Hps.
    cbn [fst] in Hexcept, Hps.
    apply Forall_cons in Hps as [[[t1 v1] Hhead] _].
    destruct (fst (groupPromise stores 0 (q_resolve now VUndefined) g))
      as [|t1' v1'|] eqn:Hg; simplify_eq/=.
    destruct (groupPromise_fulfilled_inv _ _ _ _ _ _ Hg)
      as (now' & names & name & v2 & Hnow & -> & Hin & Hname & ->).
    simpl in Hnow. injection Hnow as <-.
    by exists names, gs, name, t1, v2.
  - (* not allowed *)
    assert (now <= t0) as Hle0.
    { apply (evaluateGroups_after stores now (except map)).
      by rewrite Hexcept. }
    unfold resolveOnlyStatePermissionMap.
    destruct (only map) as [|g gs] eqn:Honly; [done|].
    destruct (evaluateGroups stores t0 (g :: gs)) as [|t1 v1|t1 r1]
      eqn:Hallow; try done.
    intros [= <- <-].
    assert (t0 <= t1) as Hle1.
    { apply (evaluateGroups_after stores t0 (g :: gs)). by rewrite Hallow. }
    split; [lia|]. right.
    by destruct (evaluateGroups_rejected_inv _ _ _ _ _ Hallow).
Qed.

(** X12, at the sample stores: nothing is denied, and [only] asks for the
    unknown [ghost]. *)
Lemma X12_rejected_only_when_denied_or_not_allowed_witness :
  0 <= 0
  /\ ((Forall (fun g => exists group name t1,
                 g = VArr group /\ name ∈ group
                 /\ is_Some (fulfilment
                               (fst (resolvePrivilege sampleStores t1 name))))
              []
       /\ exists group rest name t0 v0,
            [] = VArr group :: rest /\ name ∈ group
            /\ fst (resolvePrivilege sampleStores 0 name) = Fulfils t0 v0
            /\ VStr "ghost" = firstOfArray v0)
      \/ exists g group t1,
           g ∈ [names ["ghost"]] /\ g = VArr group
           /\ Forall (fun name =>
                        is_Some (rejection
                                   (fst (resolvePrivilege sampleStores t1
                                           name))))
                     group).
Proof.
  apply (X12_rejected_only_when_denied_or_not_allowed sampleStores 0
           (MkStatePermissionMap [names ["ghost"]] [] (RedirRaw VUndefined))
           0 (VStr "ghost")).
  vm_compute. reflexivity.
Defined.

(** ** Stalled and completed evaluations *)

Section ProgressFacts.

Variable stores : Stores.

(** After a promise that never settles nothing happens any more. *)
Lemma reduceGroups_stalled privilegesNames :
  forall group prev,
    settled_at prev = None ->
    Forall (fun p => p = Pending)
           (fst (reduceGroups stores group prev privilegesNames))
    /\ snd (reduceGroups stores group prev privilegesNames) = [].
Proof.
  induction privilegesNames as [|g gs IH]; intros group prev Hprev.
  - by split.
  - rewrite reduceGroups_cons.
    assert (groupPromise stores group prev g = (Pending, [])) as ->.
    { unfold groupPromise. by rewrite Hprev. }
    simpl. destruct (IH (S group) Pending eq_refl) as [Hps ->].
    split; [by constructor|done].
Qed.

Lemma reduceGroups_pending privilegesNames :
  forall group prev i,
    fst (reduceGroups stores group prev privilegesNames) !! i = Some Pending ->
    (forall j p, i <= j ->
       fst (reduceGroups stores group prev privilegesNames) !! j = Some p ->
       p = Pending)
    /\ (forall k m t e,
          snd (reduceGroups stores group prev privilegesNames) !! k
          = Some (Check m t e) ->
          m <= group + i).
Proof.
  induction privilegesNames as [|g gs IH]; intros group prev i; [done|].
  rewrite reduceGroups_cons. cbn [fst snd].
  destruct i as [|i]; simpl.
  - intros [= Hg].
    destruct (reduceGroups_stalled gs (S group) Pending eq_refl)
      as [Hps Htrace].
    rewrite Hg, Htrace, app_nil_r. split.
    + intros [|j] p _; simpl; [by intros [= <-]|].
      intros Hp. rewrite Forall_forall in Hps. apply Hps.
      by apply list_elem_of_lookup_2 in Hp.
    + intros k m t e Hk. apply groupPromise_check in Hk as [-> _]. lia.
  - intros Hi. destruct (IH _ _ _ Hi) as [Hlater Htrace]. split.
    + intros [|j] p Hle; [lia|]. simpl. apply Hlater. lia.
    + intros k m t e [Hk|[_ Hk]]%lookup_app_Some.
      * apply groupPromise_check in Hk as [-> _]. lia.
      * specialize (Htrace _ _ _ _ Hk). lia.
Qed.

(** Every name is looked up first in the role store. *)
Lemma resolvePrivilege_head now name :
  exists rest, snd (resolvePrivilege stores now name)
               = Has RoleStore name :: rest.
Proof.
  unfold resolvePrivilege.
  destruct (hasRoleDefinition stores name);
    [|destruct (hasPermissionDefinition stores name)]; by eexists.
Qed.

Lemma resolvePropertyValidity_has now names name :
  name ∈ names ->
  Has RoleStore name ∈ snd (resolvePropertyValidity stores now (VArr names)).
Proof.
  intros Hin. simpl. apply list_elem_of_join.
  exists (snd (resolvePrivilege stores now name)). split.
  - destruct (resolvePrivilege_head now name) as [rest ->]. left.
  - rewrite <- list_fmap_compose. apply list_elem_of_fmap. by exists name.
Qed.

(** When no validation stays pending, [$q.any] settles. *)
Lemma q_any_settles now (ps : list promise) :
  Forall (fun p => p <> Pending) ps -> is_Some (settled_at (q_any now ps)).
Proof.
  intros Hps. unfold q_any.
  destruct (earliest fulfilment ps) as [[t v]|]; [by eexists|].
  assert (existsb is_pending ps = false) as ->.
  { induction Hps as [|p ps Hp _ IH]; [done|]. simpl. rewrite IH.
    by destruct p. }
  destruct (latest rejection ps) as [[t r]|]; by eexists.
Qed.

Lemma reduceGroups_all_checked privilegesNames :
  (forall name t, fst (resolvePrivilege stores t name) <> Pending) ->
  Forall (fun g => isArray g = true) privilegesNames ->
  forall group prev,
    is_Some (settled_at prev) ->
    Forall (fun p => is_Some (settled_at p))
           (fst (reduceGroups stores group prev privilegesNames))
    /\ (forall i names name,
          privilegesNames !! i = Some (VArr names) -> name ∈ names ->
          exists t,
            Check (group + i) t (Has RoleStore name)
            ∈ snd (reduceGroups stores group prev privilegesNames)).
Proof.
  intros Hsettle Harrays.
  induction Harrays as [|g gs Hg _ IH]; intros group prev [now Hprev].
  - split; [constructor|]. by intros i names name.
  - destruct g as [| | | | |names0| | |]; try done.
    rewrite reduceGroups_cons.
    assert (groupPromise stores group prev (VArr names0)
            = (q_then firstOfArray
                 (q_any now (fst <$> (resolvePrivilege stores now <$> names0))),
               (Check group now
                  <$> snd (resolvePropertyValidity stores now (VArr names0)))
                 ++ settledEntry group
                      (q_then firstOfArray
                         (q_any now
                            (fst <$> (resolvePrivilege stores now
                                        <$> names0)))))%list) as Hgroup.
    { unfold groupPromise. by rewrite Hprev. }
    rewrite Hgroup. cbn [fst snd].
    assert (is_Some (settled_at
                       (q_then firstOfArray
                          (q_any now (fst <$> (resolvePrivilege stores now
                                                 <$> names0))))))
      as Hsettled.
    { rewrite settled_at_q_then. apply q_any_settles.
      rewrite <- list_fmap_compose. apply Forall_fmap, Forall_forall.
      intros name _. apply Hsettle. }
    destruct (IH (S group) _ Hsettled) as [Hps Hchecked].
    split; [by constructor|].
    intros [|i] names name Hlook Hin.
    + simpl in Hlook. injection Hlook as ->. exists now.
      rewrite Nat.add_0_r. apply elem_of_app. left. apply elem_of_app. left.
      apply list_elem_of_fmap. eexists. split; [reflexivity|].
      by apply resolvePropertyValidity_has.
    + simpl in Hlook. destruct (Hchecked i names name Hlook Hin) as [t Ht].
      exists t. apply elem_of_app. right.
      by replace (group + S i) with (S group + i) by lia.
Qed.

(** All checks of one group carry one and the same tick. *)
Lemma reduceGroups_one_tick privilegesNames :
  forall group prev j j' m t t' e e',
    snd (reduceGroups stores group prev privilegesNames) !! j
      = Some (Check m t e) ->
    snd (reduceGroups stores group prev privilegesNames) !! j'
      = Some (Check m t' e') ->
    t = t'.
Proof.
  induction privilegesNames as [|g gs IH];
    intros group prev j j' m t t' e e'; [done|].
  rewrite reduceGroups_cons. cbn [snd].
  intros [Hj|[_ Hj]]%lookup_app_Some [Hj'|[_ Hj']]%lookup_app_Some.
  - apply groupPromise_check in Hj as [_ Hj].
    apply groupPromise_check in Hj' as [_ Hj']. congruence.
  - apply groupPromise_check in Hj as [-> _].
    destruct (reduceGroups_trace stores _ _ _ _ _ _ _ Hj') as [Hle _]. lia.
  - apply groupPromise_check in Hj' as [-> _].
    destruct (reduceGroups_trace stores _ _ _ _ _ _ _ Hj) as [Hle _]. lia.
  - by eapply IH.
Qed.

End ProgressFacts.

(** X13.  A group whose promise never settles stalls everything behind it:
    the promises of all later groups stay pending, no name of a later group
    is ever checked, and the sequence is not fulfilled; when the groups
    before it were all fulfilled the whole evaluation stays pending. *)
Theorem X13_unsettled_group_stalls_the_rest
    (stores : Stores) (now : nat) (privilegesNames : list value) (i : nat) :
  fst (resolveStatePermissionMap stores now privilegesNames) !! i
    = Some Pending ->
  (forall j p, i <= j ->
     fst (resolveStatePermissionMap stores now privilegesNames) !! j = Some p ->
     p = Pending)
  /\ (forall k m t e,
        snd (resolveStatePermissionMap stores now privilegesNames) !! k
        = Some (Check m t e) ->
        m <= i)
  /\ fulfilment (evaluateGroups stores now privilegesNames) = None
  /\ ((forall j p, j < i ->
         fst (resolveStatePermissionMap stores now privilegesNames) !! j
         = Some p ->
         is_Some (fulfilment p)) ->
      evaluateGroups stores now privilegesNames = Pending).
Proof.
  intros Hi.
  assert ((forall j p, i <= j ->
             fst (resolveStatePermissionMap stores now privilegesNames) !! j
             = Some p -> p = Pending)
          /\ (forall k m t e,
                snd (resolveStatePermissionMap stores now privilegesNames) !! k
                = Some (Check m t e) -> m <= i)) as [Hlater Htrace].
  { destruct privilegesNames as [|g gs].
    - by destruct i.
    - rewrite resolveStatePermissionMap_nonempty in Hi |- *.
      by destruct (reduceGroups_pending stores _ _ _ _ Hi). }
  split; [done|]. split; [done|]. split.
  - destruct (evaluateGroups stores now privilegesNames) as [|t v|] eqn:Heval;
      try done.
    apply q_all_fulfilled_inv in Heval. rewrite Forall_forall in Heval.
    by destruct (Heval Pending (list_elem_of_lookup_2 _ _ _ Hi)).
  - intros Hbefore. unfold evaluateGroups, q_all.
    assert (earliest rejection
              (fst (resolveStatePermissionMap stores now privilegesNames))
            = None) as ->.
    { apply earliest_None, Forall_forall. intros p Hp.
      apply list_elem_of_lookup_1 in Hp as [j Hj].
      destruct (decide (j < i)) as [Hlt|Hge].
      - by apply fulfilment_rejection, (Hbefore j).
      - by rewrite (Hlater j p ltac:(lia) Hj). }
    assert (existsb is_pending
              (fst (resolveStatePermissionMap stores now privilegesNames))
            = true) as ->; [|done].
    apply existsb_exists. exists Pending.
    split; [|done]. apply list_elem_of_In. by eapply list_elem_of_lookup_2.
Qed.

(** X14.  No group is spared: when every group is an array and no
    validation stays pending, every group's promise settles and every name
    of every group is looked up in the role store, also in the groups that
    come after a failed one. *)
Theorem X14_every_group_is_checked
    (stores : Stores) (now : nat) (privilegesNames : list value) :
  (forall name t, fst (resolvePrivilege stores t name) <> Pending) ->
  Forall (fun g => isArray g = true) privilegesNames ->
  Forall (fun p => is_Some (settled_at p))
         (fst (resolveStatePermissionMap stores now privilegesNames))
  /\ (forall i names name,
        privilegesNames !! i = Some (VArr names) -> name ∈ names ->
        exists t,
          Check i t (Has RoleStore name)
          ∈ snd (resolveStatePermissionMap stores now privilegesNames)).
Proof.
  intros Hsettle Harrays. destruct privilegesNames as [|g gs].
  - split; [|done]. constructor; [by eexists|constructor].
  - rewrite resolveStatePermissionMap_nonempty.
    apply (reduceGroups_all_checked stores (g :: gs) Hsettle Harrays 0).
    by eexists.
Qed.

(** X15.  The names of one group are checked together: all checks of a
    group carry one and the same tick, and those of the first group the
    tick of the call. *)
Theorem X15_checks_of_a_group_share_a_tick
    (stores : Stores) (now : nat) (privilegesNames : list value)
    (j j' m t t' : nat) (e e' : event) :
  snd (resolveStatePermissionMap stores now privilegesNames) !! j
    = Some (Check m t e) ->
  snd (resolveStatePermissionMap stores now privilegesNames) !! j'
    = Some (Check m t' e') ->
  t = t' /\ (m = 0 -> t = now).
Proof.
  destruct privilegesNames as [|g gs]; [done|].
  rewrite resolveStatePermissionMap_nonempty. intros Hj Hj'.
  split; [by eapply reduceGroups_one_tick|].
  intros ->.
  destruct (reduceGroups_trace stores _ _ _ _ _ _ _ Hj) as (_ & Hsame & _).
  specialize (Hsame eq_refl). simpl in Hsame. congruence.
Qed.

(** X13, at stores where the role [slow] never settles: the group
    [[admin]] behind it is never started. *)
Lemma X13_unsettled_group_stalls_the_rest_witness :
  (forall j p, 0 <= j ->
     fst (resolveStatePermissionMap MoreSamples.stalledStores 0
            [names ["slow"]; names ["admin"]]) !! j = Some p ->
     p = Pending)
  /\ (forall k m t e,
        snd (resolveStatePermissionMap MoreSamples.stalledStores 0
               [names ["slow"]; names ["admin"]]) !! k
        = Some (Check m t e) ->
        m <= 0)
  /\ fulfilment (evaluateGroups MoreSamples.stalledStores 0
                   [names ["slow"]; names ["admin"]]) = None
  /\ ((forall j p, j < 0 ->
         fst (resolveStatePermissionMap MoreSamples.stalledStores 0
                [names ["slow"]; names ["admin"]]) !! j = Some p ->
         is_Some (fulfilment p)) ->
      evaluateGroups MoreSamples.stalledStores 0
        [names ["slow"]; names ["admin"]] = Pending).
Proof.
  apply (X13_unsettled_group_stalls_the_rest MoreSamples.stalledStores 0
           [names ["slow"]; names ["admin"]] 0).
  reflexivity.
Defined.

(** X14, at the sample stores, for the groups [[nobody]], [[admin]]: the
    second group is checked although the first one fails. *)
Lemma X14_every_group_is_checked_witness :
  Forall (fun p => is_Some (settled_at p))
         (fst (resolveStatePermissionMap sampleStores 0
                 [names ["nobody"]; names ["admin"]]))
  /\ (forall i group name,
        [names ["nobody"]; names ["admin"]] !! i = Some (VArr group) ->
        name ∈ group ->
        exists t,
          Check i t (Has RoleStore name)
          ∈ snd (resolveStatePermissionMap sampleStores 0
                   [names ["nobody"]; names ["admin"]])).
Proof.
  apply (X14_every_group_is_checked sampleStores 0
           [names ["nobody"]; names ["admin"]]).
  - intros name t. unfold resolvePrivilege. simpl.
    repeat case_match; done.
  - repeat constructor.
Defined.

(** X15, at the sample stores: entries 5 and 6 of the record are checks of
    group 1, both at tick 2. *)
Lemma X15_checks_of_a_group_share_a_tick_witness :
  snd (resolveStatePermissionMap sampleStores 0
         [names ["editor"; "banned"]; names ["read"]]) !! 5%nat
  = Some (Check 1 2 (Has RoleStore (VStr "read")))
  /\ snd (resolveStatePermissionMap sampleStores 0
            [names ["editor"; "banned"]; names ["read"]]) !! 6%nat
     = Some (Check 1 2 (Has PermissionStore (VStr "read")))
  /\ 2 = 2 /\ (1 = 0 -> 2 = 0).
Proof.
  split; [reflexivity|]. split; [reflexivity|].
  apply (X15_checks_of_a_group_share_a_tick sampleStores 0
           [names ["editor"; "banned"]; names ["read"]] 5 6 1 2 2
           (Has RoleStore (VStr "read"))
           (Has PermissionStore (VStr "read")));
    reflexivity.
Defined.

(** ** The decorated [transitionTo] *)

Section RouterFacts.

Import UiRouter.

Variable router : Router.
Variable stores : Stores.
Variable getService : string -> option value.

(** [indexOf] is zero exactly on a prefix. *)
Lemma indexOf_zero (s sub : string) :
  (indexOf s sub =? 0)%Z = String.prefix sub s.
Proof.
  unfold indexOf. destruct s as [|b s].
  - by destruct sub.
  - cbn [String.index].
    destruct (String.prefix sub (String b s)); [done|].
    by destruct (String.index 0 sub s).
Qed.

(** [isRelative] holds of the strings that begin with a dot or a caret. *)
Lemma isRelative_string (s : string) :
  isRelative (VStr s)
  = Normal (String.prefix "." s || String.prefix "^" s).
Proof. simpl. by rewrite !indexOf_zero. Qed.

(** [performTransition] throws nothing but what the construction of the
    map throws. *)
Lemma performTransition_threw (tr : transition) now w e effects w' :
  performTransition router stores getService tr now w
  = (Threw e, effects, w') ->
  exists err, e = Thrown err.
Proof.
  unfold performTransition.
  destruct (defaultPrevented router "$stateChangeStart" _); [done|].
  destruct (defaultPrevented router _ _).
  { by destruct (delegateTransitionTo router (heap w) tr now). }
  destruct (new_StatePermissionMap_of _ _ w) as [[m|err] w1].
  - by destruct (afterAuthorization _ _ _ _ _ _).
  - intros [= <- _ _]. by eexists.
Qed.

End RouterFacts.

(** X16.  A target name that begins with a dot or a caret, given without a
    reference point ([options.relative] not set), is refused by an
    exception before anything is broadcast or looked up, and no other
    string is refused so. *)
Theorem X16_relative_name_needs_a_reference_point
    (router : UiRouter.Router) (stores : Stores)
    (getService : string -> option value)
    (s : string) (toParams options : value) (now : nat) (w : world) :
  truthy (field (UiRouter.extendObject UiRouter.defaultOptions
                   (if truthy options then options else VObj []))
            "relative") = false ->
  UiRouter.transitionTo router stores getService (VStr s) toParams options
    now w
  = (UiRouter.Threw (UiRouter.NoReferencePoint (VStr s)), [], w)
  <-> String.prefix "." s || String.prefix "^" s = true.
Proof.
  intros Hrelative.
  unfold UiRouter.transitionTo, UiRouter.prepareTransition.
  cbn [UiRouter.nameOf]. rewrite Hrelative, isRelative_string.
  destruct (String.prefix "." s || String.prefix "^" s).
  - done.
  - split; [|done].
    destruct (negb (truthy _)); [done|].
    intros Hperform. exfalso.
    destruct (UiRouter.performTransition _ _ _ _ _ _) as [[o effs] w1]
      eqn:Hrun.
    injection Hperform as -> -> ->.
    by destruct (performTransition_threw _ _ _ _ _ _ _ _ _ Hrun).
Qed.

(** X16, for the target [.child] and no options. *)
Lemma X16_relative_name_needs_a_reference_point_witness :
  UiRouter.transitionTo MoreSamples.sampleRouter sampleStores noServices
    (VStr ".child") VUndefined VUndefined 3 sampleWorld
  = (UiRouter.Threw (UiRouter.NoReferencePoint (VStr ".child")), [],
     sampleWorld)
  <-> String.prefix "." ".child" || String.prefix "^" ".child" = true.
Proof.
  apply (X16_relative_name_needs_a_reference_point MoreSamples.sampleRouter
           sampleStores noServices ".child" VUndefined VUndefined 3
           sampleWorld).
  reflexivity.
Defined.

(** *** The branches of [performTransition] *)

Section BranchFacts.

Import UiRouter.

Variable router : Router.
Variable stores : Stores.
Variable getService : string -> option value.


Lemma perform_cancelled tr now w :
  defaultPrevented router "$stateChangeStart" (startArgs tr) = true ->
  performTransition router stores getService tr now w
  = (Returned (Rejects now (errorObject "Error" "transition cancelled")),
     [Broadcast now "$stateChangeStart" (startArgs tr)], w).
Proof. intros Hstart. unfold performTransition. by rewrite Hstart. Qed.

Lemma perform_waived tr now w :
  defaultPrevented router "$stateChangeStart" (startArgs tr) = false ->
  defaultPrevented router "$stateChangePermissionStart" (permissionArgs tr)
  = true ->
  performTransition router stores getService tr now w
  = (Returned
       (shift now
          (superTransitionTo router (get_prop (heap w) (toState tr) "name")
             (toParams tr) (options tr) now)),
     [Broadcast now "$stateChangeStart" (startArgs tr);
      Broadcast now "$stateChangePermissionStart" (permissionArgs tr);
      Delegated now (get_prop (heap w) (toState tr) "name") (toParams tr)
        (options tr)],
     w).
Proof.
  intros Hstart Hasked. unfold performTransition.
  rewrite Hstart. cbn [permissionStart PermTransitionEventNames].
  by rewrite Hasked.
Qed.

Lemma perform_thrown tr now w e w1 :
  defaultPrevented router "$stateChangeStart" (startArgs tr) = false ->
  defaultPrevented router "$stateChangePermissionStart" (permissionArgs tr)
  = false ->
  new_StatePermissionMap_of (transitionProperties tr)
    (path router (toState tr)) w
  = (Throw e, w1) ->
  performTransition router stores getService tr now w = (Threw (Thrown e), [Broadcast now "$stateChangeStart" (startArgs tr);
      Broadcast now "$stateChangePermissionStart" (permissionArgs tr)], w1).
Proof.
  intros Hstart Hasked Hmap. unfold performTransition.
  rewrite Hstart. cbn [permissionStart PermTransitionEventNames].
  by rewrite Hasked, Hmap.
Qed.

Lemma perform_checked tr now w m w1 :
  defaultPrevented router "$stateChangeStart" (startArgs tr) = false ->
  defaultPrevented router "$stateChangePermissionStart" (permissionArgs tr)
  = false ->
  new_StatePermissionMap_of (transitionProperties tr)
    (path router (toState tr)) w
  = (Normal m, w1) ->
  performTransition router stores getService tr now w
  = (Returned
       (afterAuthorization router getService (heap w1) tr m
          (authorizeByPermissionMap stores now m)).1,
     Broadcast now "$stateChangeStart" (startArgs tr)
     :: Broadcast now "$stateChangePermissionStart" (permissionArgs tr)
     :: (afterAuthorization router getService (heap w1) tr m
           (authorizeByPermissionMap stores now m)).2,
     w1).
Proof.
  intros Hstart Hasked Hmap. unfold performTransition.
  rewrite Hstart. cbn [permissionStart PermTransitionEventNames].
  rewrite Hasked, Hmap.
  by destruct (afterAuthorization _ _ _ _ _ _).
Qed.

(** The authorization settles no earlier than it was asked for. *)
Lemma authorizeByPermissionMap_after now m t :
  settled_at (authorizeByPermissionMap stores now m) = Some t -> now <= t.
Proof.
  unfold authorizeByPermissionMap, authorizeStatePermissionMap,
    resolveExceptStatePermissionMap.
  destruct (evaluateGroups stores now (except m)) as [|t1 v1|t1 r1] eqn:Hexcept;
    [done| |].
  - simpl. intros [= <-]. apply (evaluateGroups_after stores now (except m)).
    by rewrite Hexcept.
  - assert (now <= t1) as Hle.
    { apply (evaluateGroups_after stores now (except m)). by rewrite Hexcept. }
    unfold resolveOnlyStatePermissionMap.
    destruct (only m) as [|g gs] eqn:Honly.
    + simpl. intros [= <-]. exact Hle.
    + intros Hsettled.
      assert (t1 <= t); [|lia].
      apply (evaluateGroups_after stores t1 (g :: gs)).
      by destruct (evaluateGroups stores t1 (g :: gs)).
Qed.

(** The redirect is resolved no earlier than it was asked for. *)
Lemma resolveRedirectStateOf_after props h now m r p t :
  resolveRedirectStateOf router getService props h now m r = Normal p ->
  settled_at p = Some t -> now <= t.
Proof.
  assert (forall x, settled_at (redirectStateOf (q_when now x)) = Some t ->
                    now <= t) as Hwhen.
  { intros x. unfold q_when.
    destruct x as [| | | | | | | |[|d v|d v]]; simpl;
      repeat case_match; simpl; intros [= <-]; lia. }
  unfold resolveRedirectStateOf.
  repeat case_match; try done; intros [= <-]; try apply Hwhen;
    simpl; intros [= <-]; lia.
Qed.

End BranchFacts.

Import UiRouter.





Section OrderFacts.

Variable router : Router.
Variable stores : Stores.
Variable getService : string -> option value.

(** The effects of the rejection handler: the denial, and at most one
    [$state.go], no earlier. *)
Lemma handleUnauthorizedState_effects h tr m r t :
  let effects := (handleUnauthorizedState router getService h tr m r t).2 in
  effects = [Broadcast t "$stateChangePermissionDenied" (permissionArgs tr)]
  \/ exists t1 state toParams' options',
       t <= t1
       /\ effects
          = [Broadcast t "$stateChangePermissionDenied" (permissionArgs tr);
             Went t1 state toParams' options'].
Proof.
  unfold handleUnauthorizedState.
  destruct (resolveRedirectStateOf router getService (transitionProperties tr)
              h t m r) as [[|t1 redirect|t1 r1]|err] eqn:Hredirect;
    simpl; [by left| |by left|by left].
  right. eexists _, _, _, _. split; [|done].
  by eapply resolveRedirectStateOf_after.
Qed.

End OrderFacts.

(** Counts the navigations of an explicit list of effects. *)
Ltac count_navigations :=
  repeat first
    [ rewrite filter_cons_True by reflexivity
    | rewrite filter_cons_False by (simpl; discriminate)
    | rewrite filter_nil ];
  simpl; lia.

(** X19.  Whatever happens, the effects of a transition begin with the
    broadcast of [$stateChangeStart] at the tick of the call, follow one
    another in time, and hand the transition on at most once: to the
    undecorated [transitionTo] or to [$state.go], never to both and never
    twice. *)
Theorem X19_effects_follow_in_time_and_navigate_at_most_once
    (router : Router) (stores : Stores) (getService : string -> option value)
    (tr : transition) (now : nat) (w : world) :
  head (performTransition router stores getService tr now w).1.2
  = Some (Broadcast now "$stateChangeStart" (startArgs tr))
  /\ StronglySorted le
       (now :: (tickOf <$> (performTransition router stores getService tr now
                              w).1.2))
  /\ length (filter (fun e => isNavigation e = true)
               (performTransition router stores getService tr now w).1.2)
     <= 1.
Proof.
  destruct (defaultPrevented router "$stateChangeStart" (startArgs tr))
    eqn:Hstart.
  { rewrite perform_cancelled by done.
    split; [done|]. split; [|count_navigations].
    repeat constructor. }
  destruct (defaultPrevented router "$stateChangePermissionStart"
              (permissionArgs tr)) eqn:Hasked.
  { rewrite perform_waived by done.
    split; [done|]. split; [|count_navigations].
    repeat constructor. }
  destruct (new_StatePermissionMap_of (transitionProperties tr)
              (path router (toState tr)) w) as [[m|err] w1] eqn:Hmap.
  2:{ rewrite (perform_thrown _ _ _ _ _ _ err w1) by done.
      split; [done|]. split; [|count_navigations].
      repeat constructor. }
  rewrite (perform_checked _ _ _ _ _ _ m w1) by done.
  cbn [fst snd]. unfold afterAuthorization.
  pose proof (authorizeByPermissionMap_after stores now m) as Hafter.
  destruct (authorizeByPermissionMap stores now m) as [|t0 v0|t0 r0].
  - split; [done|]. split; [|count_navigations]. repeat constructor.
  - specialize (Hafter t0 eq_refl).
    split; [done|]. split; [|count_navigations].
    cbn. repeat constructor; lia.
  - specialize (Hafter t0 eq_refl).
    destruct (handleUnauthorizedState_effects router getService (heap w1) tr
                m r0 t0) as [->|(t1 & ? & ? & ? & Hle & ->)].
    + split; [done|]. split; [|count_navigations]. cbn. repeat constructor; lia.
    + split; [done|]. split; [|count_navigations]. cbn. repeat constructor; lia.
Qed.

Section UnprotectedFacts.

Variable PermTransitionProperties : value.





End UnprotectedFacts.




